(** * generate-sql: the predicate-expression compiler of [generateSql.ts]

    A shallow embedding of the transpiler built by [createSqlTranspiler]:
    the operator tree, the default formatter, the three built-in dialects
    and the [generateSql] entry point, followed by the properties of the
    rendering that the specification states.

    Modelling choices.
    - Expression nodes are JavaScript arrays, compared by identity in the
      cycle check ([meta.visited.includes(where)]).  The object store is
      therefore explicit: a finite map from references to nodes, and the
      children of a node are references.  Sharing and self-reference are
      values of this type.
    - Values ([SqlValue]) are only inspected, never compared by identity,
      and are kept inline.
    - Numbers are integers, rendered in decimal.  A template literal
      renders a number so when it is a safe integer ([safeInteger]); the
      statements about the text of a number are made for safe integers.
    - [fields], [macros] and the formatter registry are plain objects used
      as maps: a finite map holds the own properties, and a name that is no
      own property but names a member of [Object.prototype] is found as
      that member ([inherited]).  The keys of [fields] are numbers, and no
      member of [Object.prototype] has such a name.
    - [formatOperator] is declared to return a string and returns
      [undefined] when no [case] of its [switch] matches; [rendering] holds
      both.
    - A [throw] is a [Throw] outcome; the thrown value is one of the errors
      of the transpiler or, from an extension formatter only, a value that
      is not an [Error].  The formatter capabilities call each other
      through [meta.formatter]; this open recursion is closed by a
      recursion-depth index, and [Exhausted] is the outcome of running out
      of depth. *)

From Stdlib Require Import ZArith String List DecimalString Lia.
From stdpp Require Import base option list relations gmap strings.

Open Scope string_scope.

(** ** Data model *)

(** An object reference (the identity of an operator array). *)
Abbreviation ref := nat (only parsing).

(** [type SqlValue = SqlField | number | string | null] *)
Inductive SqlValue : Type :=
| VField (key : Z)
| VString (s : string)
| VNumber (n : Z)
| VNull.

Inductive BoolTag : Type := TAnd | TOr.
Inductive CmpTag : Type := TLt | TGt.
Inductive EqTag : Type := TEq | TNe.
Inductive EmptyTag : Type := TIsEmpty | TNotEmpty.

(** [type SqlOperator], one constructor per group of tags handled by one
    [case] of [defaultFormatOperator].  The operands after the tag of an
    [and]/[or] array are kept as a list, as [const [, ...clauses] = where]
    takes them; the type in the source allows exactly two. *)
Inductive SqlOperator : Type :=
| OpField (key : Z)
| OpBool (tag : BoolTag) (clauses : list ref)
| OpNot (clause : ref)
| OpCmp (sign : CmpTag) (a b : SqlValue)
| OpEq (sign : EqTag) (a : SqlValue) (rest : list SqlValue)
| OpEmpty (tag : EmptyTag) (v : SqlValue)
| OpMacro (name : string).

(** The object store: which array lives at which reference. *)
Abbreviation Heap := (gmap nat SqlOperator) (only parsing).

(** The values that are thrown, with the messages of the errors.
    [TypeError] is what [where[0]] throws when [where] is [undefined]: it is
    the outcome for a reference at which the store has no array.
    [NotAFunction] is the type error of calling [formatter.formatStatement]
    when [formatter] has no such property.  [UnknownError] is
    [new Error('Unknown error')].  [NotAnError] stands for a thrown value
    that is not an instance of [Error]; the transpiler throws none, an
    extension formatter may. *)
Inductive Error : Type :=
| UnknownDialect (dialect : string)
| UnknownField (key : Z)
| MacroNotFound (name : string)
| CircularDependency
| TypeError
| NotAFunction
| UnknownError
| NotAnError.

(** [e instanceof Error] *)
Definition instanceofError (e : Error) : bool :=
  match e with
  | NotAnError => false
  | _ => true
  end.

(** [`${n}`] for a number [n] that is a safe integer: its decimal digits,
    after a minus sign when it is negative. *)
Definition string_of_number (n : Z) : string :=
  NilZero.string_of_int (Z.to_int n).

(** [Number.isSafeInteger(n)]: the integers between [-(2^53 - 1)] and
    [2^53 - 1], each of which is a number of JavaScript and is written out
    in full by a template literal.  (From [1e21] on a template literal
    writes a number with an exponent, and above [2^53] not every integer
    is a number.) *)
Definition safeInteger (n : Z) : bool :=
  (- (2 ^ 53 - 1) <=? n)%Z && (n <=? 2 ^ 53 - 1)%Z.

Definition message (e : Error) : option string :=
  match e with
  | UnknownDialect dialect => Some ("No formatter found for dialect: " +:+ dialect)
  | UnknownField key => Some ("Unknown field number: " +:+ string_of_number key)
  | MacroNotFound name => Some ("Macro not found: " +:+ name)
  | CircularDependency => Some "Circular dependency detected"
  | TypeError => Some "Cannot read properties of undefined (reading '0')"
  | NotAFunction => Some "formatter.formatStatement is not a function"
  | UnknownError => Some "Unknown error"
  | NotAnError => None
  end.

(** ** Plain objects *)

(** The names of the members of [Object.prototype], which every plain
    object inherits: its functions, and the accessor [__proto__]. *)
Definition objectPrototype : list string :=
  ["constructor"; "__defineGetter__"; "__defineSetter__"; "hasOwnProperty";
   "__lookupGetter__"; "__lookupSetter__"; "isPrototypeOf";
   "propertyIsEnumerable"; "toString"; "valueOf"; "__proto__";
   "toLocaleString"].

(** [name] names a member that a plain object inherits.  Reading
    [object[name]] gives the own property [name] when there is one, this
    member when [inherited name], and [undefined] otherwise.  Every such
    member is an object (a function, or [Object.prototype] itself for
    [__proto__]): it is truthy, and none of its properties is one that the
    transpiler reads. *)
Definition inherited (name : string) : bool :=
  bool_decide (name ∈ objectPrototype).

(** ** Renderings *)

(** What [formatOperator] hands back: a string, or [undefined]. *)
Inductive rendering : Type :=
| Text (s : string)
| Undefined.

Coercion Text : string >-> rendering.

(** [`${r}`] *)
Definition templated (r : rendering) : string :=
  match r with
  | Text s => s
  | Undefined => "undefined"
  end.

(** The text of the element [r] in [parts.join(separator)]. *)
Definition joined (r : rendering) : string :=
  match r with
  | Text s => s
  | Undefined => ""
  end.

(** ** Outcomes *)

Inductive outcome (A : Type) : Type :=
| Return (a : A)
| Throw (e : Error)
| Exhausted.
Arguments Return {A} & a.
Arguments Throw {A} e.
Arguments Exhausted {A}.

#[global] Instance outcome_ret : MRet outcome := @Return.
#[global] Instance outcome_bind : MBind outcome := fun A B k m =>
  match m with
  | Return a => k a
  | Throw e => Throw e
  | Exhausted => Exhausted
  end.

(** ** Formatter bundles *)

(** [SqlFormatterMetadata] without its [formatter] component, which the
    capabilities below receive as a separate first argument. *)
Record SqlFormatterMetadata : Type := mkMeta {
  fields : gmap Z string;
  macros : gmap string nat;
  visited : list nat;
}.

(** [type SqlStatement] *)
Record SqlStatement : Type := mkStatement {
  sql_type : string;
  sql_list : string;
  sql_from : option string;
  sql_where : option nat;
  sql_limit : option Z;
}.

(** The callable capabilities reached through [meta.formatter]. *)
Record Bundle : Type := mkBundle {
  callColumn : string -> string;
  callValue : SqlValue -> SqlFormatterMetadata -> outcome string;
  callOperator : nat -> SqlFormatterMetadata -> outcome rendering;
}.

(** [interface SqlFormatter]: every capability that takes [meta] gets the
    bundle [meta.formatter] as [formatter]. *)
Record SqlFormatter : Type := mkFormatter {
  formatStatement : Bundle -> SqlStatement -> SqlFormatterMetadata -> outcome string;
  formatColumn : string -> string;
  formatValue : Bundle -> SqlValue -> SqlFormatterMetadata -> outcome string;
  formatOperator : Bundle -> Heap -> nat -> SqlFormatterMetadata -> outcome rendering;
}.

(** [meta.formatter] for the bundle [f], able to recurse [depth] deep. *)
Fixpoint methods (depth : nat) (h : Heap) (f : SqlFormatter) : Bundle :=
  match depth with
  | O => {| callColumn := formatColumn f;
            callValue := fun _ _ => Exhausted;
            callOperator := fun _ _ => Exhausted |}
  | S d => {| callColumn := formatColumn f;
              callValue := formatValue f (methods d h f);
              callOperator := formatOperator f (methods d h f) h |}
  end.

(** ** The default formatter *)

(** [['and', 'or'].includes(c[0])] *)
Definition needsWrapped (h : Heap) (c : nat) : bool :=
  match h !! c with
  | Some (OpBool _ _) => true
  | _ => false
  end.

(** [where[0].toUpperCase()] for the tags [and] and [or]. *)
Definition toUpperCase (tag : BoolTag) : string :=
  match tag with TAnd => "AND" | TOr => "OR" end.

Definition cmpSign (sign : CmpTag) : string :=
  match sign with TLt => "<" | TGt => ">" end.

(** [{ ...meta, visited: [...meta.visited, where] }] *)
Definition visit (meta : SqlFormatterMetadata) (where_ : nat) : SqlFormatterMetadata :=
  {| fields := fields meta; macros := macros meta;
     visited := visited meta ++ [where_] |}.

(** The [parts] of an [and]/[or] node: each clause rendered, and put in
    parentheses when it is itself an [and]/[or] array. *)
Definition clausePart (formatter : Bundle) (h : Heap)
    (meta : SqlFormatterMetadata) (c : nat) : outcome rendering :=
  clauseStr ← callOperator formatter c meta;
  mret (if negb (needsWrapped h c) then clauseStr
        else Text ("(" +:+ templated clauseStr +:+ ")")).

(** In the [macro] case, [meta.macros[where[1]]] finds the own property of
    that name, or else the member of [Object.prototype] of that name, which
    passes [if (!macro)].  The call [formatOperator(macro, meta)] on such a
    member is written out as what the default operator renderer does with
    it, which is to return [undefined]: the member is on no ancestor path,
    its property [0] is [undefined], and no [case] of the [switch] matches.
    (The operator renderer of a bundle is handed the arrays of the store
    only.) *)
Definition defaultFormatOperator (formatter : Bundle) (h : Heap)
    (where_ : nat) (meta : SqlFormatterMetadata) : outcome rendering :=
  if bool_decide (where_ ∈ visited meta) then Throw CircularDependency else
  let meta := visit meta where_ in
  match h !! where_ with
  | None => Throw TypeError
  | Some (OpBool tag clauses) =>
      parts ← mapM (clausePart formatter h meta) clauses;
      mret (Text (String.concat (" " +:+ toUpperCase tag +:+ " ") (joined <$> parts)))
  | Some (OpNot clause) =>
      s ← callOperator formatter clause meta;
      mret (Text ("NOT (" +:+ templated s +:+ ")"))
  | Some (OpCmp sign a b) =>
      sa ← callValue formatter a meta;
      sb ← callValue formatter b meta;
      mret (Text (sa +:+ " " +:+ cmpSign sign +:+ " " +:+ sb))
  | Some (OpEq sign a rest) =>
      match rest with
      | [b] =>
          let signSql :=
            match b with
            | VNull => match sign with TNe => "IS NOT" | TEq => "IS" end
            | _ => match sign with TNe => "<>" | TEq => "=" end
            end in
          sa ← callValue formatter a meta;
          sb ← callValue formatter b meta;
          mret (Text (sa +:+ " " +:+ signSql +:+ " " +:+ sb))
      | _ =>
          let signSql := match sign with TNe => "NOT IN" | TEq => "IN" end in
          sa ← callValue formatter a meta;
          ss ← mapM (fun f => callValue formatter f meta) rest;
          mret (Text (sa +:+ " " +:+ signSql +:+ " (" +:+ String.concat ", " ss +:+ ")"))
      end
  | Some (OpEmpty TIsEmpty v) =>
      s ← callValue formatter v meta; mret (Text (s +:+ " IS NULL"))
  | Some (OpEmpty TNotEmpty v) =>
      s ← callValue formatter v meta; mret (Text (s +:+ " IS NOT NULL"))
  | Some (OpField key) =>
      s ← callValue formatter (VField key) meta; mret (Text s)
  | Some (OpMacro name) =>
      match macros meta !! name with
      | Some macro => callOperator formatter macro meta
      | None =>
          if inherited name then mret Undefined
          else Throw (MacroNotFound name)
      end
  end.

(** [!columnName]: the property is missing or is the empty string. *)
Definition falsyString (s : option string) : bool :=
  match s with
  | None => true
  | Some s => String.eqb s ""
  end.

(** [if (sql.limit)]: the property is present and is not zero. *)
Definition truthyNumber (n : option Z) : bool :=
  match n with
  | None => false
  | Some n => negb (Z.eqb n 0)
  end.

Definition defaultFormatValue (formatter : Bundle) (value : SqlValue)
    (meta : SqlFormatterMetadata) : outcome string :=
  match value with
  | VField key =>
      let columnName := fields meta !! key in
      if falsyString columnName then Throw (UnknownField key)
      else mret (callColumn formatter (default "" columnName))
  | VString s => mret ("'" +:+ s +:+ "'")
  | VNumber n => mret (string_of_number n)
  | VNull => mret "NULL"
  end.

(** [if (sql.from) parts.push(`FROM ${sql.from}`)] *)
Definition pushFrom (parts : list string) (sql : SqlStatement) : list string :=
  if falsyString (sql_from sql) then parts
  else (parts ++ ["FROM " +:+ default "" (sql_from sql)])%list.

(** [if (sql.where) parts.push(`WHERE ${meta.formatter.formatOperator(sql.where, meta)}`)] *)
Definition pushWhere (formatter : Bundle) (parts : list string)
    (sql : SqlStatement) (meta : SqlFormatterMetadata) : outcome (list string) :=
  match sql_where sql with
  | None => mret parts
  | Some w =>
      s ← callOperator formatter w meta;
      mret (parts ++ ["WHERE " +:+ templated s])%list
  end.

(** [if (sql.limit) parts.push(`<keyword> ${sql.limit}`)] *)
Definition pushLimit (keyword : string) (parts : list string)
    (sql : SqlStatement) : list string :=
  if truthyNumber (sql_limit sql)
  then (parts ++ [keyword +:+ " " +:+ string_of_number (default 0%Z (sql_limit sql))])%list
  else parts.

Definition defaultFormatStatement (formatter : Bundle) (sql : SqlStatement)
    (meta : SqlFormatterMetadata) : outcome string :=
  let parts := [sql_type sql; sql_list sql] in
  let parts := pushFrom parts sql in
  parts ← pushWhere formatter parts sql meta;
  let parts := pushLimit "LIMIT" parts sql in
  mret (String.concat " " parts).

(** The one-character string holding a double quote. *)
Definition dquote : string := String (Ascii.ascii_of_nat 34) EmptyString.

Definition defaultFormatter : SqlFormatter :=
  {| formatStatement := defaultFormatStatement;
     formatColumn := fun name => dquote +:+ name +:+ dquote;
     formatValue := defaultFormatValue;
     formatOperator := defaultFormatOperator |}.

(** The [sqlserver] override of [formatStatement]. *)
Definition sqlserverFormatStatement (formatter : Bundle) (sql : SqlStatement)
    (meta : SqlFormatterMetadata) : outcome string :=
  let parts := [sql_type sql] in
  let parts := pushLimit "TOP" parts sql in
  let parts := (parts ++ [sql_list sql])%list in
  let parts := pushFrom parts sql in
  parts ← pushWhere formatter parts sql meta;
  mret (String.concat " " parts).

Definition sqlserver : SqlFormatter :=
  {| formatStatement := sqlserverFormatStatement;
     formatColumn := formatColumn defaultFormatter;
     formatValue := formatValue defaultFormatter;
     formatOperator := formatOperator defaultFormatter |}.

Definition postgres : SqlFormatter :=
  {| formatStatement := formatStatement defaultFormatter;
     formatColumn := formatColumn defaultFormatter;
     formatValue := formatValue defaultFormatter;
     formatOperator := formatOperator defaultFormatter |}.

Definition mysql : SqlFormatter :=
  {| formatStatement := formatStatement defaultFormatter;
     formatColumn := fun name => "`" +:+ name +:+ "`";
     formatValue := formatValue defaultFormatter;
     formatOperator := formatOperator defaultFormatter |}.

Definition builtInFormatters : gmap string SqlFormatter :=
  {[ "sqlserver" := sqlserver; "postgres" := postgres; "mysql" := mysql ]}.

(** ** The transpiler *)

(** [type Result<T, E>]: an object with a flag and two optional properties. *)
Record Result : Type := mkResult {
  success : bool;
  error : option Error;
  data : option string;
}.

(** [interface SqlTranspilerOptions] *)
Record SqlTranspilerOptions : Type := mkOptions {
  tableName : option string;
  opt_macros : option (gmap string nat);
  opt_formatters : option (gmap string SqlFormatter);
}.

(** [interface SqlQuery] *)
Record SqlQuery : Type := mkQuery {
  limit : option Z;
  where_ : option nat;
}.

(** [generateSql] with the recursion depth of [meta.formatter] given;
    [None] says that this depth is used up, and nothing about the call.  A
    dialect that names no own
    property of the registry but a member of [Object.prototype] finds that
    member, which has no [formatStatement]: the call of it inside [try]
    throws the type error that [catch] reports. *)
Definition generateSqlAt (depth : nat) (options : SqlTranspilerOptions)
    (h : Heap) (dialect : string) (fields : gmap Z string)
    (query : SqlQuery) : option Result :=
  let macros := default ∅ (opt_macros options) in
  let formatters := default builtInFormatters (opt_formatters options) in
  match formatters !! dialect with
  | None =>
      if inherited dialect
      then Some {| success := false; error := Some NotAFunction; data := None |}
      else Some {| success := false; error := Some (UnknownDialect dialect);
                   data := None |}
  | Some formatter =>
      match formatStatement formatter (methods depth h formatter)
              {| sql_type := "SELECT"; sql_list := "*";
                 sql_from := tableName options;
                 sql_where := where_ query; sql_limit := limit query |}
              {| fields := fields; macros := macros; visited := [] |} with
      | Return sqlStr =>
          Some {| success := true; error := None; data := Some (sqlStr +:+ ";") |}
      | Throw e =>
          Some {| success := false;
                  error := Some (if instanceofError e then e else UnknownError);
                  data := None |}
      | Exhausted => None
      end
  end.

(** The depth that a traversal of the store [h] by the default operator
    renderer cannot exceed: every node on a branch is a different object. *)
Definition enough (h : Heap) : nat := S (S (size h)).

Definition generateSql (options : SqlTranspilerOptions) (h : Heap)
    (dialect : string) (fields : gmap Z string) (query : SqlQuery) : option Result :=
  generateSqlAt (enough h) options h dialect fields query.

(** ** Bundles that keep the default value and operator renderers *)

(** A bundle built by spreading [defaultFormatter] and overriding at most
    [formatStatement] and [formatColumn]. *)
Definition standard (f : SqlFormatter) : Prop :=
  formatValue f = defaultFormatValue /\ formatOperator f = defaultFormatOperator.

(** How many objects of the store are not yet on the ancestor path. *)
Definition slack (h : Heap) (vs : list nat) : nat :=
  size (dom h ∖ list_to_set vs).

(** [meta.formatter] as [generateSql] passes it. *)
Definition closed (h : Heap) (f : SqlFormatter) : Bundle :=
  methods (enough h) h f.

(** ** The result of [generateSql] *)

(** The two shapes of [Result]. *)
Definition succeeded (text : string) : Result :=
  {| success := true; error := None; data := Some text |}.

Definition failed (e : Error) : Result :=
  {| success := false; error := Some e; data := None |}.

(** The metadata that [generateSql] starts from. *)
Definition initial (options : SqlTranspilerOptions) (fields : gmap Z string) :
    SqlFormatterMetadata :=
  {| fields := fields; macros := default ∅ (opt_macros options); visited := [] |}.

(** Options that keep the built-in formatter registry. *)
Definition builtInOptions (tableName : option string) (macros : gmap string nat) :
    SqlTranspilerOptions :=
  {| tableName := tableName; opt_macros := Some macros; opt_formatters := None |}.

(** The statement that [generateSql] hands to [formatStatement]. *)
Definition statement (options : SqlTranspilerOptions) (query : SqlQuery) :
    SqlStatement :=
  {| sql_type := "SELECT"; sql_list := "*"; sql_from := tableName options;
     sql_where := where_ query; sql_limit := limit query |}.

(** The registry in which [generateSql] looks the dialect up. *)
Definition registry (options : SqlTranspilerOptions) : gmap string SqlFormatter :=
  default builtInFormatters (opt_formatters options).

(** What [formatStatement] of the bundle [formatter] gives for a call of
    [generateSql], with the recursion depth given, and with the depth that
    the store gives. *)
Definition renderedAt (depth : nat) (options : SqlTranspilerOptions) (h : Heap)
    (fields : gmap Z string) (query : SqlQuery) (formatter : SqlFormatter) :
    outcome string :=
  formatStatement formatter (methods depth h formatter) (statement options query)
    (initial options fields).

Definition rendered (options : SqlTranspilerOptions) (h : Heap)
    (fields : gmap Z string) (query : SqlQuery) (formatter : SqlFormatter) :
    outcome string :=
  renderedAt (enough h) options h fields query formatter.

(** What [catch] reports for the thrown value [e]. *)
Definition caught (e : Error) : Error :=
  if instanceofError e then e else UnknownError.

(** An outcome that is no [throw] of a value that is not an [Error]. *)
Definition throwsErrors {A} (o : outcome A) : Prop :=
  match o with
  | Throw e => instanceofError e = true
  | Return _ | Exhausted => True
  end.

Definition resultOf (o : outcome string) : option Result :=
  match o with
  | Return sqlStr => Some (succeeded (sqlStr +:+ ";"))
  | Throw e => Some (failed (caught e))
  | Exhausted => None
  end.

(** ** The texts that the specification names *)

(** The words of the specification for the signs of an equality. *)
Definition nullSign (sign : EqTag) : string :=
  match sign with TEq => "IS" | TNe => "IS NOT" end.

Definition singleSign (sign : EqTag) : string :=
  match sign with TEq => "=" | TNe => "<>" end.

Definition listSign (sign : EqTag) : string :=
  match sign with TEq => "IN" | TNe => "NOT IN" end.

Definition joiner (tag : BoolTag) : string :=
  match tag with TAnd => " AND " | TOr => " OR " end.

(** The text of a child of an [and]/[or] node before joining: in
    parentheses exactly when the child is itself an [and] or [or] array. *)
Definition childText (h : Heap) (c : nat) (s : string) : string :=
  match h !! c with
  | Some (OpBool _ _) => "(" +:+ s +:+ ")"
  | _ => s
  end.

Ltac enter_node Hnode :=
  unfold defaultFormatOperator;
  rewrite bool_decide_eq_false_2 by assumption;
  rewrite Hnode.

(** Membership in a list that is written out. *)
Ltac is_in := simpl; repeat first [by left | right].

Ltac not_in :=
  let H := fresh in
  simpl; intros H;
  repeat (apply elem_of_cons in H as [H|H]; [discriminate|]);
  by apply not_elem_of_nil in H.

(** ** The graph of an expression *)

(** The objects that rendering a node goes on to render: the operands of
    [and]/[or]/[not], and the body that a macro name resolves to. *)
Definition children (macros : gmap string nat) (node : SqlOperator) : list nat :=
  match node with
  | OpBool _ clauses => clauses
  | OpNot clause => [clause]
  | OpMacro name => match macros !! name with Some macro => [macro] | None => [] end
  | OpField _ | OpCmp _ _ _ | OpEq _ _ _ | OpEmpty _ _ => []
  end.

Definition edge (h : Heap) (macros : gmap string nat) (a b : nat) : Prop :=
  exists node, h !! a = Some node /\ b ∈ children macros node.

(** [n] is its own ancestor: a path of one or more edges leads from [n]
    back to [n]. *)
Definition ownAncestor (h : Heap) (macros : gmap string nat) (n : nat) : Prop :=
  tc (edge h macros) n n.

(** [n] is [w] or lies below [w]. *)
Definition reaches (h : Heap) (macros : gmap string nat) (w n : nat) : Prop :=
  rtc (edge h macros) w n.

Definition valueResolves (fields : gmap Z string) (v : SqlValue) : bool :=
  match v with
  | VField key => negb (falsyString (fields !! key))
  | VString _ | VNumber _ | VNull => true
  end.

Definition nodeResolves (fields : gmap Z string) (macros : gmap string nat)
    (node : SqlOperator) : bool :=
  match node with
  | OpField key => valueResolves fields (VField key)
  | OpCmp _ a b => valueResolves fields a && valueResolves fields b
  | OpEq _ a rest => valueResolves fields a && forallb (valueResolves fields) rest
  | OpEmpty _ v => valueResolves fields v
  | OpMacro name => bool_decide (is_Some (macros !! name))
  | OpBool _ _ | OpNot _ => true
  end.

(** Every object at or below [w] exists, and its field numbers and macro
    name are in the field map and the macro table. *)
Definition resolves (h : Heap) (macros : gmap string nat) (fields : gmap Z string)
    (w : nat) : Prop :=
  forall a, reaches h macros w a ->
    exists node, h !! a = Some node /\ nodeResolves fields macros node = true.

(** As [nodeResolves], with a macro name that names a member of
    [Object.prototype] counted as found. *)
Definition nodeRenders (fields : gmap Z string) (macros : gmap string nat)
    (node : SqlOperator) : bool :=
  match node with
  | OpMacro name => bool_decide (is_Some (macros !! name)) || inherited name
  | _ => nodeResolves fields macros node
  end.

(** Every object at or below [w] exists, its field numbers are in the field
    map, and its macro name is found in the macro table, as an own property
    or as an inherited member. *)
Definition renderable (h : Heap) (macros : gmap string nat) (fields : gmap Z string)
    (w : nat) : Prop :=
  forall a, reaches h macros w a ->
    exists node, h !! a = Some node /\ nodeRenders fields macros node = true.

(** A check of [resolves] for every object of the store at once. *)
Definition storeResolves (h : Heap) (macros : gmap string nat)
    (fields : gmap Z string) : bool :=
  forallb (fun entry : nat * SqlOperator =>
             nodeResolves fields macros entry.2
             && forallb (fun c => bool_decide (is_Some (h !! c)))
                  (children macros entry.2))
    (map_to_list h).

(** ** Which error a cycle gives *)

(** An outcome that is a text or the circular-dependency error. *)
Definition textOrCircular {A} (o : outcome A) : Prop :=
  match o with
  | Return _ => True
  | Throw e => e = CircularDependency
  | Exhausted => False
  end.

(** ** Inlining a macro *)

(** The store in which the macro reference [r] has been replaced by a copy
    of the array [body]. *)
Definition inline (h : Heap) (r : nat) (body : SqlOperator) : Heap :=
  <[r := body]> h.

Definition isBool (node : SqlOperator) : bool :=
  match node with OpBool _ _ => true | _ => false end.

(** [r] is an operand of some [and]/[or] node of the store. *)
Definition boolOperand (h : Heap) (r : nat) : Prop :=
  exists p tag clauses, h !! p = Some (OpBool tag clauses) /\ r ∈ clauses.

Definition operandOf (r : nat) (node : SqlOperator) : bool :=
  match node with
  | OpBool _ clauses => bool_decide (r ∈ clauses)
  | _ => false
  end.

(** A check that [r] is an operand of no [and]/[or] node. *)
Definition noBoolOperand (h : Heap) (r : nat) : bool :=
  forallb (fun entry : nat * SqlOperator => negb (operandOf r entry.2))
    (map_to_list h).

(** [o'] is the outcome [o], unless [o] reports a circular dependency. *)
Definition agrees {A} (o o' : outcome A) : Prop :=
  match o with
  | Return a => o' = Return a
  | Throw e => e = CircularDependency \/ o' = Throw e
  | Exhausted => True
  end.

(** ** What an error report says *)

(** The values that rendering a node renders. *)
Definition values (node : SqlOperator) : list SqlValue :=
  match node with
  | OpField key => [VField key]
  | OpCmp _ a b => [a; b]
  | OpEq _ a rest => a :: rest
  | OpEmpty _ v => [v]
  | OpBool _ _ | OpNot _ | OpMacro _ => []
  end.

(** The fact behind each error that rendering the expression at [w] can
    throw: a field reference at or below [w] whose number has no column
    name, a macro reference at or below [w] whose name has no body, a node
    at or below [w] that is its own ancestor, a reference at or below [w]
    at which the store has no array. *)
Inductive justified (h : Heap) (macros : gmap string nat) (fields : gmap Z string)
    (w : nat) : Error -> Prop :=
| justified_field key a node :
    reaches h macros w a -> h !! a = Some node -> VField key ∈ values node ->
    falsyString (fields !! key) = true ->
    justified h macros fields w (UnknownField key)
| justified_macro name a :
    reaches h macros w a -> h !! a = Some (OpMacro name) -> macros !! name = None ->
    justified h macros fields w (MacroNotFound name)
| justified_cycle n :
    reaches h macros w n -> ownAncestor h macros n ->
    justified h macros fields w CircularDependency
| justified_missing a :
    reaches h macros w a -> h !! a = None ->
    justified h macros fields w TypeError.

(** Every object on the ancestor path [vs] is a proper ancestor of [w]. *)
Definition ancestors (h : Heap) (macros : gmap string nat) (vs : list nat)
    (w : nat) : Prop :=
  forall v, v ∈ vs -> tc (edge h macros) v w.

(** ** Where a traversal stops *)

(** Nothing stops the rendering of [w] below the ancestor path [path]:
    everything at or below [w] is found, and no object at or below [w] is
    on the path or is its own ancestor.  This is [w] rendering below
    [path], to a text or to [undefined] ([Return_rendersBelow] and
    [rendersBelow_Return] below). *)
Definition rendersBelow (h : Heap) (macros : gmap string nat)
    (fields : gmap Z string) (path : list nat) (w : nat) : Prop :=
  renderable h macros fields w
  /\ forall n, reaches h macros w n -> (n ∉ path) /\ ~ ownAncestor h macros n.

(** The traversal that starts at [w] below the ancestor path [path] is
    stopped by the error [e]: [w] is on the path; or the store has no array
    at [w]; or the first of the values of the array at [w] that does not
    resolve is a reference to a field without a column name; or [w] is a
    reference to a macro whose name is not found; or the traversal goes on
    into the operand of a [not], into the body of a macro of the table, or
    into an operand of an [and]/[or] whose earlier operands all render, and
    is stopped by [e] from there. *)
Inductive stops (h : Heap) (macros : gmap string nat)
    (fields : gmap Z string) : list nat -> nat -> Error -> Prop :=
| stops_cycle path w :
    w ∈ path -> stops h macros fields path w CircularDependency
| stops_missing path w :
    w ∉ path -> h !! w = None -> stops h macros fields path w TypeError
| stops_field path w node pre key post :
    w ∉ path -> h !! w = Some node ->
    values node = (pre ++ VField key :: post)%list ->
    forallb (valueResolves fields) pre = true ->
    falsyString (fields !! key) = true ->
    stops h macros fields path w (UnknownField key)
| stops_name path w name :
    w ∉ path -> h !! w = Some (OpMacro name) ->
    macros !! name = None -> inherited name = false ->
    stops h macros fields path w (MacroNotFound name)
| stops_not path w clause e :
    w ∉ path -> h !! w = Some (OpNot clause) ->
    stops h macros fields (path ++ [w]) clause e ->
    stops h macros fields path w e
| stops_body path w name macro e :
    w ∉ path -> h !! w = Some (OpMacro name) -> macros !! name = Some macro ->
    stops h macros fields (path ++ [w]) macro e ->
    stops h macros fields path w e
| stops_operand path w tag pre c post e :
    w ∉ path -> h !! w = Some (OpBool tag (pre ++ c :: post)) ->
    Forall (rendersBelow h macros fields (path ++ [w])) pre ->
    stops h macros fields (path ++ [w]) c e ->
    stops h macros fields path w e.

(** ** Emptiness tests as equalities with null *)

(** The equality sign that an emptiness test stands for. *)
Definition emptyAsEq (tag : EmptyTag) : EqTag :=
  match tag with TIsEmpty => TEq | TNotEmpty => TNe end.

(** ** Outcomes of the same kind *)

(** Both outcomes are texts, or both are the same error. *)
Definition sameKind {A} (o o' : outcome A) : Prop :=
  match o, o' with
  | Return _, Return _ => True
  | Throw e, Throw e' => e = e'
  | Exhausted, Exhausted => True
  | _, _ => False
  end.

(** ** The layout of a statement *)

(** A clause of a statement: nothing when it is absent, and otherwise a
    space, the keyword, a space and the text. *)
Definition clauseText (keyword : string) (text : option string) : string :=
  match text with
  | Some s => " " +:+ keyword +:+ " " +:+ s
  | None => ""
  end.

(** The table name that is written: one that is present and not empty. *)
Definition writtenFrom (tableName : option string) : option string :=
  match tableName with
  | Some "" | None => None
  | Some name => Some name
  end.

(** The limit that is written: one that is present and not zero. *)
Definition writtenLimit (limit : option Z) : option string :=
  match limit with
  | Some 0%Z | None => None
  | Some n => Some (string_of_number n)
  end.

(** The text of the where-expression of [query], when it renders. *)
Definition whereRenders (B : Bundle) (query : SqlQuery)
    (meta : SqlFormatterMetadata) (text : option string) : Prop :=
  match where_ query with
  | None => text = None
  | Some w => exists s, callOperator B w meta = Return s /\ text = Some (templated s)
  end.

(** The limit of [query], when there is one, is a safe integer. *)
Definition safeLimit (query : SqlQuery) : bool :=
  match limit query with
  | Some n => safeInteger n
  | None => true
  end.

Definition safeValue (v : SqlValue) : bool :=
  match v with
  | VNumber n => safeInteger n
  | VField _ | VString _ | VNull => true
  end.

(** Every number in an array of the store is a safe integer. *)
Definition safeStore (h : Heap) : bool :=
  forallb (fun entry : nat * SqlOperator => forallb safeValue (values entry.2))
    (map_to_list h).

(** ** The part of the store that is read *)

(** A check that the list [l] of references is closed under going from an
    object to the objects rendered below it. *)
Definition closedUnder (h : Heap) (macros : gmap string nat) (l : list nat) : bool :=
  forallb (fun x =>
             match h !! x with
             | Some node => forallb (fun c => bool_decide (c ∈ l)) (children macros node)
             | None => true
             end) l.

(** ** Fixtures *)

Module Fixtures.

(** The field map of the repository's tests. *)
Definition fields : gmap Z string :=
  {[ 1%Z := "id"; 2%Z := "name"; 3%Z := "date_joined"; 4%Z := "age" ]}.

(** A name between double quotes. *)
Definition q (name : string) : string := dquote +:+ name +:+ dquote.

Definition ok (s : string) : option Result := Some (succeeded s).

Definition failure (e : Error) : option Result := Some (failed e).

(** The metadata of a call with no macros, at the root. *)
Definition root : SqlFormatterMetadata :=
  mkMeta fields ∅ [].

(** A transpiler for the table [data] with no macros. *)
Definition data_table : SqlTranspilerOptions :=
  {| tableName := Some "data"; opt_macros := None; opt_formatters := None |}.

(** A store with one array, and the query whose where-expression it is. *)
Definition only (op : SqlOperator) : gmap nat SqlOperator := {[ 0 := op ]}.

Definition at0 : SqlQuery := {| limit := None; where_ := Some 0 |}.

(** [['and', ['!=', ['field', 3], null],
      ['or', ['>', ['field', 4], 25], ['=', ['field', 2], 'Jerry']]]] *)
Definition nested : gmap nat SqlOperator :=
  {[ 0 := OpBool TAnd [1; 2];
     1 := OpEq TNe (VField 3) [VNull];
     2 := OpBool TOr [3; 4];
     3 := OpCmp TGt (VField 4) (VNumber 25);
     4 := OpEq TEq (VField 2) [VString "Jerry"] ]}.

Definition joe_macros : gmap string nat := {[ "is_joe" := 10 ]}.

(** [['and', ['<', ['field', 1], 5], ['macro', 'is_joe']]] *)
Definition joe : gmap nat SqlOperator :=
  {[ 0 := OpBool TAnd [1; 2];
     1 := OpCmp TLt (VField 1) (VNumber 5);
     2 := OpMacro "is_joe";
     10 := OpEq TEq (VField 2) [VString "joe"] ]}.

Definition adult_joe_macros : gmap string nat :=
  {[ "is_joe" := 10; "is_adult" := 11; "is_adult_joe" := 12 ]}.

(** [['and', ['<', ['field', 1], 5], ['macro', 'is_adult_joe']]] *)
Definition adult_joe : gmap nat SqlOperator :=
  {[ 0 := OpBool TAnd [1; 2];
     1 := OpCmp TLt (VField 1) (VNumber 5);
     2 := OpMacro "is_adult_joe";
     10 := OpEq TEq (VField 2) [VString "joe"];
     11 := OpCmp TGt (VField 4) (VNumber 18);
     12 := OpBool TAnd [13; 14];
     13 := OpMacro "is_joe";
     14 := OpMacro "is_adult" ]}.

Definition decent_macros : gmap string nat :=
  {[ "is_good" := 10; "is_decent" := 20 ]}.

(** [['macro', 'is_decent']] with the two macros that refer to each other. *)
Definition decent : gmap nat SqlOperator :=
  {[ 0 := OpMacro "is_decent";
     10 := OpBool TAnd [11; 12];
     11 := OpMacro "is_decent";
     12 := OpCmp TGt (VField 4) (VNumber 18);
     20 := OpBool TAnd [21; 22];
     21 := OpMacro "is_good";
     22 := OpCmp TLt (VField 5) (VNumber 5) ]}.

(** [['and', reusedWhereClause, reusedWhereClause]] *)
Definition reused : gmap nat SqlOperator :=
  {[ 0 := OpBool TAnd [1; 1]; 1 := OpField 1 ]}.

(** [selfReferentialWhereClause[1] = selfReferentialWhereClause] *)
Definition selfReferential : gmap nat SqlOperator :=
  {[ 0 := OpBool TAnd [0; 1]; 1 := OpField 1 ]}.

(** An [and] array whose first operand is a field that is not in the field
    map and whose second operand is the array itself. *)
Definition unknownThenSelf : gmap nat SqlOperator :=
  {[ 0 := OpBool TAnd [1; 0]; 1 := OpField 999 ]}.

(** [['not', ['macro', 'either']]] with [either] an [or] array. *)
Definition either_macros : gmap string nat := {[ "either" := 2 ]}.

Definition not_either : gmap nat SqlOperator :=
  {[ 0 := OpNot 1;
     1 := OpMacro "either";
     2 := OpBool TOr [3; 4];
     3 := OpField 1;
     4 := OpField 2 ]}.

Definition with_macros (macros : gmap string nat) : SqlTranspilerOptions :=
  {| tableName := Some "data"; opt_macros := Some macros; opt_formatters := None |}.

(** [['and', ['<', ['field', 1], 5], ['macro', name]]] *)
Definition and_macro (name : string) : gmap nat SqlOperator :=
  {[ 0 := OpBool TAnd [1; 2];
     1 := OpCmp TLt (VField 1) (VNumber 5);
     2 := OpMacro name ]}.

(** An extension formatter whose [formatStatement] throws a value that is
    not an [Error], and one whose [formatStatement] is the default one
    between square brackets. *)
Definition thrower : SqlFormatter :=
  {| formatStatement := fun _ _ _ => Throw NotAnError;
     formatColumn := formatColumn defaultFormatter;
     formatValue := formatValue defaultFormatter;
     formatOperator := formatOperator defaultFormatter |}.

Definition bracketed : SqlFormatter :=
  {| formatStatement := fun formatter sql meta =>
       s ← defaultFormatStatement formatter sql meta; mret ("[" +:+ s +:+ "]");
     formatColumn := formatColumn defaultFormatter;
     formatValue := formatValue defaultFormatter;
     formatOperator := formatOperator defaultFormatter |}.

Definition extended : SqlTranspilerOptions :=
  {| tableName := Some "data"; opt_macros := None;
     opt_formatters := Some {[ "thrower" := thrower; "bracketed" := bracketed ]} |}.

End Fixtures.

(** * Theorems *)

(** ** The outcome monad *)

Lemma bind_Return {A B} (k : A -> outcome B) (m : outcome A) (b : B) :
  m ≫= k = Return b -> exists a, m = Return a /\ k a = Return b.
Proof. destruct m as [a| |]; simpl; intros E; try discriminate. eauto. Qed.

Lemma bind_Exhausted {A B} (k : A -> outcome B) (m : outcome A) :
  m <> Exhausted -> (forall a, k a <> Exhausted) -> m ≫= k <> Exhausted.
Proof. destruct m; simpl; auto; discriminate. Qed.

Lemma mapM_ext_in {A B} (f g : A -> outcome B) (l : list A) :
  (forall x, x ∈ l -> f x = g x) -> mapM f l = mapM g l.
Proof.
  induction l as [|x l IH]; intros E; simpl; [reflexivity|].
  rewrite (E x) by left. rewrite IH; [reflexivity|].
  intros y Hy. apply E. by right.
Qed.

Lemma mapM_Return {A B} (f : A -> outcome B) (l : list A) (k : list B) :
  mapM f l = Return k <-> Forall2 (fun x y => f x = Return y) l k.
Proof.
  revert k. induction l as [|x l IH]; intros k; simpl.
  - split.
    + intros [= <-]. constructor.
    + intros E. inversion E. reflexivity.
  - split.
    + intros E. apply bind_Return in E as (y & Ey & E).
      apply bind_Return in E as (k' & Ek & E). inversion E; subst.
      constructor; [assumption|]. by apply IH.
    + intros E. inversion E as [|? y ? k' Ey Ek]; subst.
      rewrite Ey. simpl. apply IH in Ek. rewrite Ek. reflexivity.
Qed.

Lemma mapM_Exhausted {A B} (f : A -> outcome B) (l : list A) :
  (forall x, x ∈ l -> f x <> Exhausted) -> mapM f l <> Exhausted.
Proof.
  induction l as [|x l IH]; intros E; simpl; [discriminate|].
  apply bind_Exhausted; [apply E; left|].
  intros y. apply bind_Exhausted; [|discriminate].
  apply IH. intros z Hz. apply E. by right.
Qed.

(** ** Bundles that keep the default renderers *)

Lemma standard_defaultFormatter : standard defaultFormatter.
Proof. split; reflexivity. Qed.

Lemma standard_sqlserver : standard sqlserver.
Proof. split; reflexivity. Qed.

Lemma standard_postgres : standard postgres.
Proof. split; reflexivity. Qed.

Lemma standard_mysql : standard mysql.
Proof. split; reflexivity. Qed.

Lemma builtIn_cases (dialect : string) (f : SqlFormatter) :
  builtInFormatters !! dialect = Some f ->
  f = sqlserver \/ f = postgres \/ f = mysql.
Proof.
  unfold builtInFormatters. intros E.
  destruct (decide (dialect = "sqlserver")) as [->|N1].
  { rewrite lookup_insert_eq in E. injection E as <-. auto. }
  rewrite lookup_insert_ne in E by congruence.
  destruct (decide (dialect = "postgres")) as [->|N2].
  { rewrite lookup_insert_eq in E. injection E as <-. auto. }
  rewrite lookup_insert_ne in E by congruence.
  destruct (decide (dialect = "mysql")) as [->|N3].
  { rewrite lookup_singleton_eq in E. injection E as <-. auto. }
  rewrite lookup_singleton_ne in E by congruence. discriminate.
Qed.

Lemma builtIn_standard (dialect : string) (f : SqlFormatter) :
  builtInFormatters !! dialect = Some f -> standard f.
Proof.
  intros E. destruct (builtIn_cases _ _ E) as [->|[->| ->]]; split; reflexivity.
Qed.

Lemma slack_le (h : Heap) (vs : list nat) : slack h vs <= size h.
Proof.
  unfold slack. rewrite <- (size_dom (D := gset nat) h).
  apply subseteq_size. intros x Hx. by apply elem_of_difference in Hx as [Hx _].
Qed.

Lemma slack_visit (h : Heap) (vs : list nat) (w : nat) :
  w ∉ vs -> is_Some (h !! w) -> slack h (vs ++ [w]) < slack h vs.
Proof.
  intros Hw Hin. unfold slack. apply subset_size.
  apply elem_of_dom in Hin.
  split.
  - intros x Hx. apply elem_of_difference in Hx as [Hd Hx].
    apply elem_of_difference. split; [assumption|]. intros Hv. apply Hx.
    rewrite elem_of_list_to_set in Hv |- *. apply elem_of_app. by left.
  - intros Hsub. assert (Hx : w ∈ dom h ∖ list_to_set (C := gset nat) vs).
    { apply elem_of_difference. split; [assumption|].
      rewrite elem_of_list_to_set. assumption. }
    apply Hsub in Hx. apply elem_of_difference in Hx as [_ Hx].
    apply Hx. rewrite elem_of_list_to_set. apply elem_of_app. right. by left.
Qed.

Section Standard.

Context (h : Heap) (f : SqlFormatter) (Hstd : standard f).

Lemma callColumn_methods (n : nat) : callColumn (methods n h f) = formatColumn f.
Proof. destruct n; reflexivity. Qed.

Lemma defaultFormatValue_ext (B B' : Bundle) (v : SqlValue) (meta : SqlFormatterMetadata) :
  callColumn B = callColumn B' ->
  defaultFormatValue B v meta = defaultFormatValue B' v meta.
Proof. intros E. destruct v; simpl; try reflexivity. rewrite E. reflexivity. Qed.

Lemma callValue_methods (n : nat) (B : Bundle) (v : SqlValue) (meta : SqlFormatterMetadata) :
  callColumn B = formatColumn f ->
  callValue (methods (S n) h f) v meta = defaultFormatValue B v meta.
Proof.
  intros E. simpl. destruct Hstd as [-> _].
  apply defaultFormatValue_ext. rewrite callColumn_methods. congruence.
Qed.

Lemma defaultFormatOperator_ext (B B' : Bundle) (w : nat) (meta : SqlFormatterMetadata) :
  (forall v m, callValue B v m = callValue B' v m) ->
  (w ∉ visited meta -> is_Some (h !! w) ->
   forall c, callOperator B c (visit meta w) = callOperator B' c (visit meta w)) ->
  defaultFormatOperator B h w meta = defaultFormatOperator B' h w meta.
Proof.
  intros Hv Hc. unfold defaultFormatOperator.
  case_bool_decide as Hin; [reflexivity|].
  destruct (h !! w) as [node|] eqn:Ew; [|reflexivity].
  specialize (Hc Hin (ltac:(eauto))).
  destruct node as [key|tag clauses|clause|sign a b|sign a rest|tag v|name].
  - rewrite Hv. reflexivity.
  - f_equal. apply mapM_ext_in. intros c _. unfold clausePart.
    rewrite Hc. reflexivity.
  - rewrite Hc. reflexivity.
  - rewrite !Hv. reflexivity.
  - assert (Em : mapM (fun x => callValue B x (visit meta w)) rest
                 = mapM (fun x => callValue B' x (visit meta w)) rest)
      by (apply mapM_ext_in; intros; apply Hv).
    destruct rest as [|b [|b' rest]]; rewrite ?Hv; try reflexivity;
      rewrite Em; reflexivity.
  - destruct tag; rewrite Hv; reflexivity.
  - destruct (macros (visit meta w) !! name); [apply Hc|reflexivity].
Qed.

(** Past the depth that the store allows, more depth changes nothing. *)
Lemma callOperator_stable (n : nat) :
  forall w meta, slack h (visited meta) <= n ->
    callOperator (methods (S (S n)) h f) w meta
    = callOperator (methods (S (S (S n))) h f) w meta.
Proof.
  induction n as [|n IH]; intros w meta Hn.
  - change (formatOperator f (methods 1 h f) h w meta
            = formatOperator f (methods 2 h f) h w meta).
    destruct Hstd as [_ ->]. apply defaultFormatOperator_ext.
    + intros v m. rewrite !(callValue_methods _ (methods 0 h f)); auto.
    + intros Hw Hin. pose proof (slack_visit h _ w Hw Hin). lia.
  - change (formatOperator f (methods (S (S n)) h f) h w meta
            = formatOperator f (methods (S (S (S n))) h f) h w meta).
    pose proof Hstd as [_ ->]. apply defaultFormatOperator_ext.
    + intros v m. rewrite !(callValue_methods _ (methods 0 h f)); auto.
    + intros Hw Hin c. apply IH. simpl.
      pose proof (slack_visit h _ w Hw Hin). lia.
Qed.

(** The operator renderer reached through [meta.formatter] is the default
    one, calling back into the same bundle. *)
Lemma callOperator_closed (w : nat) (meta : SqlFormatterMetadata) :
  callOperator (closed h f) w meta = defaultFormatOperator (closed h f) h w meta.
Proof.
  unfold closed, enough.
  change (formatOperator f (methods (S (size h)) h f) h w meta
          = defaultFormatOperator (methods (S (S (size h))) h f) h w meta).
  pose proof Hstd as [_ ->]. apply defaultFormatOperator_ext.
  - intros v m. rewrite !(callValue_methods _ (methods 0 h f)); auto.
  - intros Hw Hin c. pose proof (slack_visit h _ w Hw Hin) as Hlt.
    pose proof (slack_le h (visited meta)) as Hle.
    destruct (size h) as [|n] eqn:En; [lia|].
    apply callOperator_stable. simpl. lia.
Qed.

Lemma callValue_closed (v : SqlValue) (meta : SqlFormatterMetadata) :
  callValue (closed h f) v meta = defaultFormatValue (closed h f) v meta.
Proof. apply callValue_methods. apply callColumn_methods. Qed.

End Standard.

(** ** Termination of the built-in renderers *)

Lemma defaultFormatValue_total (B : Bundle) (v : SqlValue) (meta : SqlFormatterMetadata) :
  defaultFormatValue B v meta <> Exhausted.
Proof.
  destruct v; simpl; try discriminate.
  destruct (falsyString _); discriminate.
Qed.

Lemma defaultFormatOperator_total (B : Bundle) (h : Heap) (w : nat)
    (meta : SqlFormatterMetadata) :
  (forall v m, callValue B v m <> Exhausted) ->
  (w ∉ visited meta -> is_Some (h !! w) ->
   forall c, callOperator B c (visit meta w) <> Exhausted) ->
  defaultFormatOperator B h w meta <> Exhausted.
Proof.
  intros Hv Hc. unfold defaultFormatOperator.
  case_bool_decide as Hin; [discriminate|].
  destruct (h !! w) as [node|] eqn:Ew; [|discriminate].
  specialize (Hc Hin (ltac:(eauto))).
  destruct node as [key|tag clauses|clause|sign a b|sign a rest|tag v|name].
  - apply bind_Exhausted; [apply Hv|discriminate].
  - apply bind_Exhausted; [|discriminate].
    apply mapM_Exhausted. intros c _.
    apply bind_Exhausted; [apply Hc|discriminate].
  - apply bind_Exhausted; [apply Hc|discriminate].
  - apply bind_Exhausted; [apply Hv|]. intros sa.
    apply bind_Exhausted; [apply Hv|discriminate].
  - assert (Hm : mapM (fun x => callValue B x (visit meta w)) rest <> Exhausted)
      by (apply mapM_Exhausted; intros; apply Hv).
    destruct rest as [|b [|b' rest]];
      (apply bind_Exhausted; [apply Hv|]; intros sa;
       apply bind_Exhausted; [first [apply Hm | apply Hv]|discriminate]).
  - destruct tag; (apply bind_Exhausted; [apply Hv|discriminate]).
  - destruct (macros (visit meta w) !! name); [apply Hc|].
    destruct (inherited name); discriminate.
Qed.

Section Totality.

Context (h : Heap) (f : SqlFormatter) (Hstd : standard f).

Lemma callValue_total (v : SqlValue) (meta : SqlFormatterMetadata) :
  callValue (closed h f) v meta <> Exhausted.
Proof. rewrite callValue_closed by assumption. apply defaultFormatValue_total. Qed.

Lemma callOperator_total_slack (n : nat) :
  forall w meta, slack h (visited meta) <= n ->
    callOperator (closed h f) w meta <> Exhausted.
Proof.
  induction n as [|n IH]; intros w meta Hn;
    rewrite callOperator_closed by assumption;
    (apply defaultFormatOperator_total; [intros; apply callValue_total|]);
    intros Hw Hin c; pose proof (slack_visit h _ w Hw Hin) as Hlt.
  - lia.
  - apply IH. simpl. lia.
Qed.

(** With the depth that [generateSql] provides, the operator renderer of a
    built-in bundle always returns or throws. *)
Lemma callOperator_total (w : nat) (meta : SqlFormatterMetadata) :
  callOperator (closed h f) w meta <> Exhausted.
Proof. apply (callOperator_total_slack (slack h (visited meta))). lia. Qed.

End Totality.

Lemma pushWhere_total (B : Bundle) (parts : list string) (sql : SqlStatement)
    (meta : SqlFormatterMetadata) :
  (forall w, callOperator B w meta <> Exhausted) ->
  pushWhere B parts sql meta <> Exhausted.
Proof.
  intros HB. unfold pushWhere. destruct (sql_where sql) as [w|]; [|discriminate].
  apply bind_Exhausted; [apply HB|discriminate].
Qed.

Lemma builtIn_statement_total (dialect : string) (f : SqlFormatter) (h : Heap)
    (sql : SqlStatement) (meta : SqlFormatterMetadata) :
  builtInFormatters !! dialect = Some f ->
  formatStatement f (closed h f) sql meta <> Exhausted.
Proof.
  intros E. pose proof (builtIn_standard _ _ E) as Hstd.
  assert (HB : forall w, callOperator (closed h f) w meta <> Exhausted)
    by (intros; by apply callOperator_total).
  destruct (builtIn_cases _ _ E) as [->|[->| ->]]; simpl;
    [unfold sqlserverFormatStatement|unfold defaultFormatStatement..];
    (apply bind_Exhausted; [by apply pushWhere_total|discriminate]).
Qed.

(** ** The result of [generateSql] *)

Lemma generateSql_unfold (options : SqlTranspilerOptions) (h : Heap)
    (dialect : string) (fields : gmap Z string) (query : SqlQuery) :
  generateSql options h dialect fields query
  = match registry options !! dialect with
    | None =>
        Some (failed (if inherited dialect then NotAFunction
                      else UnknownDialect dialect))
    | Some f => resultOf (rendered options h fields query f)
    end.
Proof.
  unfold generateSql, generateSqlAt, registry, rendered, renderedAt.
  destruct (default builtInFormatters (opt_formatters options) !! dialect) as [f|].
  - unfold closed, statement, initial, resultOf.
    destruct (formatStatement f _ _ _); reflexivity.
  - destruct (inherited dialect); reflexivity.
Qed.

Lemma generateSql_builtIn (dialect : string) (f : SqlFormatter)
    (tableName : option string) (macros : gmap string nat) (h : Heap)
    (fields : gmap Z string) (query : SqlQuery) :
  builtInFormatters !! dialect = Some f ->
  generateSql (builtInOptions tableName macros) h dialect fields query
  = resultOf (formatStatement f (closed h f)
                (statement (builtInOptions tableName macros) query)
                (initial (builtInOptions tableName macros) fields)).
Proof.
  intros E. rewrite generateSql_unfold.
  change (registry (builtInOptions tableName macros)) with builtInFormatters.
  rewrite E. reflexivity.
Qed.

Lemma builtIn_statement_where (dialect : string) (f : SqlFormatter) (B : Bundle)
    (sql : SqlStatement) (meta : SqlFormatterMetadata) (w : nat) :
  builtInFormatters !! dialect = Some f ->
  sql_where sql = Some w ->
  match callOperator B w meta with
  | Return s => exists text, formatStatement f B sql meta = Return text
  | Throw e => formatStatement f B sql meta = Throw e
  | Exhausted => formatStatement f B sql meta = Exhausted
  end.
Proof.
  intros E Hw.
  destruct (builtIn_cases _ _ E) as [->|[->| ->]];
    cbn [formatStatement sqlserver postgres mysql defaultFormatter];
    [unfold sqlserverFormatStatement|unfold defaultFormatStatement..];
    unfold pushWhere; rewrite Hw;
    destruct (callOperator B w meta); cbn [mbind outcome_bind mret outcome_ret];
    eauto.
Qed.

(** ** What the built-in renderers throw *)

Lemma bind_throwsErrors {A B} (k : A -> outcome B) (m : outcome A) :
  throwsErrors m -> (forall a, throwsErrors (k a)) -> throwsErrors (m ≫= k).
Proof. destruct m; simpl; auto. Qed.

Lemma mapM_throwsErrors {A B} (f : A -> outcome B) (l : list A) :
  (forall x, x ∈ l -> throwsErrors (f x)) -> throwsErrors (mapM f l).
Proof.
  induction l as [|x l IH]; intros E; simpl; [exact I|].
  apply bind_throwsErrors; [apply E; left|].
  intros y. apply bind_throwsErrors; [|intros; exact I].
  apply IH. intros z Hz. apply E. by right.
Qed.

Lemma defaultFormatValue_throwsErrors (B : Bundle) (v : SqlValue)
    (meta : SqlFormatterMetadata) :
  throwsErrors (defaultFormatValue B v meta).
Proof.
  destruct v; simpl; try exact I.
  destruct (falsyString _); simpl; auto.
Qed.

Lemma defaultFormatOperator_throwsErrors (B : Bundle) (h : Heap) (w : nat)
    (meta : SqlFormatterMetadata) :
  (forall v m, throwsErrors (callValue B v m)) ->
  (w ∉ visited meta -> is_Some (h !! w) ->
   forall c, throwsErrors (callOperator B c (visit meta w))) ->
  throwsErrors (defaultFormatOperator B h w meta).
Proof.
  intros Hv Hc. unfold defaultFormatOperator.
  case_bool_decide as Hin; [reflexivity|].
  destruct (h !! w) as [node|] eqn:Ew; [|reflexivity].
  specialize (Hc Hin (ltac:(eauto))).
  destruct node as [key|tag clauses|clause|sign a b|sign a rest|tag v|name].
  - apply bind_throwsErrors; [apply Hv|intros; exact I].
  - apply bind_throwsErrors; [|intros; exact I].
    apply mapM_throwsErrors. intros c _.
    apply bind_throwsErrors; [apply Hc|intros; exact I].
  - apply bind_throwsErrors; [apply Hc|intros; exact I].
  - apply bind_throwsErrors; [apply Hv|]. intros sa.
    apply bind_throwsErrors; [apply Hv|intros; exact I].
  - assert (Hm : throwsErrors (mapM (fun x => callValue B x (visit meta w)) rest))
      by (apply mapM_throwsErrors; intros; apply Hv).
    destruct rest as [|b [|b' rest]];
      (apply bind_throwsErrors; [apply Hv|]; intros sa;
       apply bind_throwsErrors; [first [apply Hm | apply Hv]|intros; exact I]).
  - destruct tag; (apply bind_throwsErrors; [apply Hv|intros; exact I]).
  - destruct (macros (visit meta w) !! name); [apply Hc|].
    destruct (inherited name); reflexivity.
Qed.

Section Thrown.

Context (h : Heap) (f : SqlFormatter) (Hstd : standard f).

Lemma callValue_throwsErrors (v : SqlValue) (meta : SqlFormatterMetadata) :
  throwsErrors (callValue (closed h f) v meta).
Proof.
  rewrite callValue_closed by assumption. apply defaultFormatValue_throwsErrors.
Qed.

Lemma callOperator_throwsErrors_slack (n : nat) :
  forall w meta, slack h (visited meta) <= n ->
    throwsErrors (callOperator (closed h f) w meta).
Proof.
  induction n as [|n IH]; intros w meta Hn;
    rewrite callOperator_closed by assumption;
    (apply defaultFormatOperator_throwsErrors;
     [intros; apply callValue_throwsErrors|]);
    intros Hw Hin c; pose proof (slack_visit h _ w Hw Hin) as Hlt.
  - lia.
  - apply IH. simpl. lia.
Qed.

(** The operator renderer of a bundle that keeps the default renderers
    throws nothing but errors. *)
Lemma callOperator_throwsErrors (w : nat) (meta : SqlFormatterMetadata) :
  throwsErrors (callOperator (closed h f) w meta).
Proof. apply (callOperator_throwsErrors_slack (slack h (visited meta))). lia. Qed.

Lemma callOperator_caught (w : nat) (meta : SqlFormatterMetadata) (e : Error) :
  callOperator (closed h f) w meta = Throw e -> caught e = e.
Proof.
  intros E. pose proof (callOperator_throwsErrors w meta) as Ht.
  rewrite E in Ht. simpl in Ht. unfold caught. by rewrite Ht.
Qed.

End Thrown.

Lemma builtIn_statement_throwsErrors (dialect : string) (f : SqlFormatter)
    (h : Heap) (sql : SqlStatement) (meta : SqlFormatterMetadata) :
  builtInFormatters !! dialect = Some f ->
  throwsErrors (formatStatement f (closed h f) sql meta).
Proof.
  intros E. pose proof (builtIn_standard _ _ E) as Hstd.
  assert (Hp : forall parts, throwsErrors (pushWhere (closed h f) parts sql meta)).
  { intros parts. unfold pushWhere. destruct (sql_where sql) as [w|]; [|exact I].
    apply bind_throwsErrors; [by apply callOperator_throwsErrors|intros; exact I]. }
  destruct (builtIn_cases _ _ E) as [->|[->| ->]];
    cbn [formatStatement sqlserver postgres mysql defaultFormatter];
    [unfold sqlserverFormatStatement|unfold defaultFormatStatement..];
    (apply bind_throwsErrors; [apply Hp|intros; exact I]).
Qed.

(** ** Failing and succeeding calls *)

(** A throwing where-expression makes the whole call fail with that error. *)
Lemma generateSql_Throw (dialect : string) (f : SqlFormatter)
    (tableName : option string) (macros : gmap string nat) (h : Heap)
    (fields : gmap Z string) (limit : option Z) (w : nat) (e : Error) :
  builtInFormatters !! dialect = Some f ->
  callOperator (closed h f) w (initial (builtInOptions tableName macros) fields)
    = Throw e ->
  generateSql (builtInOptions tableName macros) h dialect fields
    {| limit := limit; where_ := Some w |} = Some (failed e).
Proof.
  intros E Hthrow. rewrite (generateSql_builtIn _ _ _ _ _ _ _ E).
  pose proof (builtIn_statement_where dialect f (closed h f)
    (statement (builtInOptions tableName macros)
       {| limit := limit; where_ := Some w |})
    (initial (builtInOptions tableName macros) fields) w E eq_refl) as Hs.
  rewrite Hthrow in Hs. rewrite Hs. simpl.
  by rewrite (callOperator_caught h f (builtIn_standard _ _ E) _ _ _ Hthrow).
Qed.

(** A call that succeeds has rendered its where-expression. *)
Lemma generateSql_succeeded (dialect : string) (f : SqlFormatter)
    (tableName : option string) (macros : gmap string nat) (h : Heap)
    (fields : gmap Z string) (limit : option Z) (w : nat) (text : string) :
  builtInFormatters !! dialect = Some f ->
  generateSql (builtInOptions tableName macros) h dialect fields
    {| limit := limit; where_ := Some w |} = Some (succeeded text) ->
  exists s,
    callOperator (closed h f) w (initial (builtInOptions tableName macros) fields)
    = Return s.
Proof.
  intros E. rewrite (generateSql_builtIn _ _ _ _ _ _ _ E).
  pose proof (builtIn_statement_where dialect f (closed h f)
    (statement (builtInOptions tableName macros)
       {| limit := limit; where_ := Some w |})
    (initial (builtInOptions tableName macros) fields) w E eq_refl) as Hs.
  destruct (callOperator (closed h f) w _) as [s|e|].
  - eauto.
  - rewrite Hs. discriminate.
  - rewrite Hs. discriminate.
Qed.

(** C5. Whatever the options, the registry of formatters and the depth
    allowed to the recursion through [meta.formatter] are, a call of
    [generateSql] returns unless the [formatStatement] that it selects uses
    up that depth, and with a built-in formatter selected it returns.  The
    result is a success or a failure.  A success carries no error, and its
    text is the text returned by [formatStatement] followed by [;].  A
    failure carries no text, and its error is the unknown-dialect error
    when the registry has no formatter of that name (the type error of the
    call when the name is that of an inherited member), and otherwise the
    error that [formatStatement] threw, or [UnknownError] in place of a
    thrown value that is not an error. *)
Theorem generateSql_two_variant (depth : nat) (options : SqlTranspilerOptions)
    (h : Heap) (dialect : string) (fields : gmap Z string) (query : SqlQuery) :
  (generateSqlAt depth options h dialect fields query = None
   <-> exists formatter, registry options !! dialect = Some formatter
         /\ renderedAt depth options h fields query formatter = Exhausted)
  /\ (forall formatter d,
        registry options !! dialect = Some formatter ->
        builtInFormatters !! d = Some formatter ->
        exists r, generateSql options h dialect fields query = Some r)
  /\ (forall r, generateSqlAt depth options h dialect fields query = Some r ->
        (success r = true /\ error r = None
         /\ exists formatter sqlStr,
              registry options !! dialect = Some formatter
              /\ renderedAt depth options h fields query formatter = Return sqlStr
              /\ data r = Some (sqlStr +:+ ";"))
        \/ (success r = false /\ data r = None
            /\ ((registry options !! dialect = None
                 /\ error r = Some (if inherited dialect then NotAFunction
                                    else UnknownDialect dialect))
                \/ exists formatter e,
                     registry options !! dialect = Some formatter
                     /\ renderedAt depth options h fields query formatter = Throw e
                     /\ error r = Some (if instanceofError e then e
                                        else UnknownError)))).
Proof.
  split; [|split].
  - unfold generateSqlAt, registry, renderedAt, statement, initial.
    destruct (default builtInFormatters (opt_formatters options) !! dialect)
      as [f|].
    + destruct (formatStatement f _ _ _) as [s|e|] eqn:Er.
      * split; [discriminate|]. intros (f' & [= <-] & Ef). congruence.
      * split; [discriminate|]. intros (f' & [= <-] & Ef). congruence.
      * split; [eauto|reflexivity].
    + split; [|intros (f' & Ef & _); discriminate].
      destruct (inherited dialect); discriminate.
  - intros f d Ef Ed. rewrite generateSql_unfold, Ef.
    pose proof (builtIn_statement_total d f h (statement options query)
                  (initial options fields) Ed) as Ht.
    unfold rendered, renderedAt.
    change (methods (enough h) h f) with (closed h f).
    destruct (formatStatement f (closed h f) _ _); [eauto..|congruence].
  - unfold generateSqlAt, registry, renderedAt, statement, initial.
    destruct (default builtInFormatters (opt_formatters options) !! dialect)
      as [f|].
    + destruct (formatStatement f _ _ _) as [s|e|] eqn:Er; intros r [= <-].
      * left. cbn. eauto 10.
      * right. cbn. eauto 10.
    + intros r Hr. right.
      destruct (inherited dialect); injection Hr as <-; cbn; auto.
Qed.

(** ** The cases of the default operator renderer *)

Lemma defaultFormatOperator_bool (B : Bundle) (h : Heap) (w : nat) (tag : BoolTag)
    (clauses : list nat) (meta : SqlFormatterMetadata) (texts : list string) :
  h !! w = Some (OpBool tag clauses) ->
  w ∉ visited meta ->
  Forall2 (fun c (s : string) => callOperator B c (visit meta w) = Return s)
    clauses texts ->
  defaultFormatOperator B h w meta
  = Return (String.concat (joiner tag) (zip_with (childText h) clauses texts)).
Proof.
  intros Hnode Hw Hall. enter_node Hnode.
  assert (Hm : mapM (clausePart B h (visit meta w)) clauses
               = Return (Text <$> zip_with (childText h) clauses texts)).
  { clear Hnode. apply mapM_Return. induction Hall as [|c s cs ss Hc _ IH]; simpl.
    - constructor.
    - constructor; [|exact IH]. unfold clausePart. rewrite Hc. simpl.
      unfold childText, needsWrapped.
      destruct (h !! c) as [[]|]; reflexivity. }
  rewrite Hm. cbn [mbind outcome_bind mret outcome_ret].
  rewrite <- list_fmap_compose.
  rewrite (list_fmap_ext (joined ∘ Text) id) by reflexivity.
  rewrite list_fmap_id. destruct tag; reflexivity.
Qed.

Lemma defaultFormatOperator_not (B : Bundle) (h : Heap) (w clause : nat)
    (meta : SqlFormatterMetadata) :
  h !! w = Some (OpNot clause) ->
  w ∉ visited meta ->
  defaultFormatOperator B h w meta
  = s ← callOperator B clause (visit meta w);
    mret (Text ("NOT (" +:+ templated s +:+ ")")).
Proof. intros Hnode Hw. enter_node Hnode. reflexivity. Qed.

(** C1. An [=] or [!=] node rendered by the default operator renderer of a
    bundle that keeps the default renderers, with first operand rendering
    to [sa]: one comparison value that is null gives [sa IS NULL] or
    [sa IS NOT NULL]; one comparison value that is not null and renders to
    [sb] gives [sa = sb] or [sa <> sb]; more than one comparison value,
    rendering to [ss] position by position, gives [sa IN (...)] or
    [sa NOT IN (...)] over [ss] joined by a comma and a space. *)
Theorem equality_forms (h : Heap) (f : SqlFormatter) (w : nat) (sign : EqTag)
    (a : SqlValue) (rest : list SqlValue) (meta : SqlFormatterMetadata)
    (sa : string) :
  standard f ->
  h !! w = Some (OpEq sign a rest) ->
  w ∉ visited meta ->
  callValue (closed h f) a (visit meta w) = Return sa ->
  (rest = [VNull] ->
   callOperator (closed h f) w meta
   = Return (sa +:+ " " +:+ nullSign sign +:+ " NULL"))
  /\ (forall b sb, rest = [b] -> b <> VNull ->
      callValue (closed h f) b (visit meta w) = Return sb ->
      callOperator (closed h f) w meta
      = Return (sa +:+ " " +:+ singleSign sign +:+ " " +:+ sb))
  /\ (forall ss, 1 < length rest ->
      Forall2 (fun v s => callValue (closed h f) v (visit meta w) = Return s) rest ss ->
      callOperator (closed h f) w meta
      = Return (sa +:+ " " +:+ listSign sign +:+ " (" +:+ String.concat ", " ss +:+ ")")).
Proof.
  intros Hstd Hnode Hw Ha.
  rewrite callOperator_closed by assumption. enter_node Hnode.
  split; [|split].
  - intros ->. rewrite Ha. rewrite callValue_closed by assumption.
    destruct sign; reflexivity.
  - intros b sb -> Hb Eb. rewrite Ha, Eb.
    destruct b; try congruence; destruct sign; reflexivity.
  - intros ss Hlen Hall. apply mapM_Return in Hall.
    destruct rest as [|b [|b' rest]]; simpl in Hlen; try lia.
    rewrite Ha. cbn [mbind outcome_bind]. rewrite Hall.
    destruct sign; reflexivity.
Qed.

(** C4. An [and] or [or] node whose children render to [texts], position
    by position, renders to those texts joined by [ AND ] or [ OR ], where
    the text of a child is put in parentheses when the child is itself an
    [and] or [or] node and is left as it is for a child with any other
    tag. *)
Theorem bool_parenthesizes_bool_children (h : Heap) (f : SqlFormatter) (w : nat)
    (tag : BoolTag) (clauses : list nat) (meta : SqlFormatterMetadata)
    (texts : list string) :
  standard f ->
  h !! w = Some (OpBool tag clauses) ->
  w ∉ visited meta ->
  Forall2 (fun c (s : string) =>
             callOperator (closed h f) c (visit meta w) = Return s)
    clauses texts ->
  callOperator (closed h f) w meta
  = Return (String.concat (joiner tag) (zip_with (childText h) clauses texts))
  /\ (forall c s child, h !! c = Some child ->
      childText h c s = match child with
                        | OpBool _ _ => "(" +:+ s +:+ ")"
                        | OpField _ | OpNot _ | OpCmp _ _ _ | OpEq _ _ _
                        | OpEmpty _ _ | OpMacro _ => s
                        end).
Proof.
  intros Hstd Hnode Hw Hall. split.
  - rewrite callOperator_closed by assumption.
    by apply defaultFormatOperator_bool.
  - intros c s child Hc. unfold childText. rewrite Hc.
    destruct child; reflexivity.
Qed.

(** C6. A [not] node renders to [NOT (] followed by the text of its child
    followed by [)], whatever the child is. *)
Theorem not_wraps_child (h : Heap) (f : SqlFormatter) (w clause : nat)
    (meta : SqlFormatterMetadata) (s : string) :
  standard f ->
  h !! w = Some (OpNot clause) ->
  w ∉ visited meta ->
  callOperator (closed h f) clause (visit meta w) = Return s ->
  callOperator (closed h f) w meta = Return ("NOT (" +:+ s +:+ ")").
Proof.
  intros Hstd Hnode Hw Hc. rewrite callOperator_closed by assumption.
  rewrite (defaultFormatOperator_not _ _ _ _ _ Hnode Hw), Hc. reflexivity.
Qed.

(** C7. A node [and(x, x)] or [or(x, x)] whose two operands are the same
    object renders, when [x] renders to [s] below it, to the text of [x]
    twice around the joiner; and it is reported as a circular dependency
    only if rendering [x] below it is. *)
Theorem sibling_reuse_renders_twice (h : Heap) (f : SqlFormatter) (p x : nat)
    (tag : BoolTag) (meta : SqlFormatterMetadata) :
  standard f ->
  h !! p = Some (OpBool tag [x; x]) ->
  p ∉ visited meta ->
  (forall s : string, callOperator (closed h f) x (visit meta p) = Return s ->
     callOperator (closed h f) p meta
     = Return (childText h x s +:+ joiner tag +:+ childText h x s))
  /\ (callOperator (closed h f) p meta = Throw CircularDependency ->
      callOperator (closed h f) x (visit meta p) = Throw CircularDependency).
Proof.
  intros Hstd Hnode Hp. split.
  - intros s Hx. rewrite callOperator_closed by assumption.
    rewrite (defaultFormatOperator_bool _ _ _ _ _ _ [s; s] Hnode Hp).
    + reflexivity.
    + repeat constructor; assumption.
  - rewrite (callOperator_closed h f Hstd p). enter_node Hnode.
    cbn [mapM]. unfold clausePart.
    destruct (callOperator (closed h f) x (visit meta p)) as [s|e|];
      cbn; unfold mret, outcome_ret; congruence.
Qed.

(** ** Missing fields and macros *)

Lemma defaultFormatValue_unknown (B : Bundle) (key : Z) (meta : SqlFormatterMetadata) :
  falsyString (fields meta !! key) = true ->
  defaultFormatValue B (VField key) meta = Throw (UnknownField key).
Proof. intros E. simpl. rewrite E. reflexivity. Qed.

(** C10. A field map entry whose column name is the empty string counts as
    missing: the value renderer throws [UnknownField] for a reference to
    it, and so does a call of [generateSql] whose where-expression is that
    reference, instead of returning an empty quoted identifier. *)
Theorem empty_column_name_is_unknown (dialect : string) (f : SqlFormatter)
    (tableName : option string) (macros : gmap string nat) (h : Heap)
    (fields : gmap Z string) (limit : option Z) (w : nat) (key : Z) :
  builtInFormatters !! dialect = Some f ->
  fields !! key = Some "" ->
  h !! w = Some (OpField key) ->
  (forall B vs,
      formatValue f B (VField key)
        (mkMeta fields macros vs)
      = Throw (UnknownField key))
  /\ generateSql {| tableName := tableName; opt_macros := Some macros;
                    opt_formatters := None |} h dialect fields
       {| limit := limit; where_ := Some w |}
     = Some {| success := false; error := Some (UnknownField key); data := None |}.
Proof.
  intros E Hk Hnode. pose proof (builtIn_standard _ _ E) as Hstd.
  assert (Hv : forall B vs,
      defaultFormatValue B (VField key)
        (mkMeta fields macros vs)
      = Throw (UnknownField key)).
  { intros B vs. apply defaultFormatValue_unknown. simpl. rewrite Hk. reflexivity. }
  split.
  - intros B vs. destruct Hstd as [-> _]. apply Hv.
  - apply (generateSql_Throw dialect f); [assumption|].
    rewrite callOperator_closed by assumption.
    unfold defaultFormatOperator. rewrite bool_decide_eq_false_2
      by (simpl; apply not_elem_of_nil).
    rewrite Hnode. rewrite callValue_closed by assumption.
    unfold visit, initial. rewrite (Hv (closed h f)). reflexivity.
Qed.

(** ** The limit clause *)

(** C9. For each of the three built-in formatters, a statement whose limit
    is 0 renders exactly as the same statement with no limit, so neither a
    [LIMIT] nor a [TOP] clause is written; the same holds for the result of
    [generateSql]. *)
Theorem zero_limit_is_no_limit (dialect : string) (f : SqlFormatter)
    (tableName : option string) (macros : option (gmap string nat)) (h : Heap)
    (fields : gmap Z string) (w : option nat) :
  builtInFormatters !! dialect = Some f ->
  (forall B type list from meta,
      formatStatement f B
        {| sql_type := type; sql_list := list; sql_from := from;
           sql_where := w; sql_limit := Some 0%Z |} meta
      = formatStatement f B
          {| sql_type := type; sql_list := list; sql_from := from;
             sql_where := w; sql_limit := None |} meta)
  /\ generateSql {| tableName := tableName; opt_macros := macros;
                    opt_formatters := None |} h dialect fields
       {| limit := Some 0%Z; where_ := w |}
     = generateSql {| tableName := tableName; opt_macros := macros;
                      opt_formatters := None |} h dialect fields
         {| limit := None; where_ := w |}.
Proof.
  intros E.
  assert (Hs : forall B type list from meta,
      formatStatement f B
        {| sql_type := type; sql_list := list; sql_from := from;
           sql_where := w; sql_limit := Some 0%Z |} meta
      = formatStatement f B
          {| sql_type := type; sql_list := list; sql_from := from;
             sql_where := w; sql_limit := None |} meta).
  { intros. destruct (builtIn_cases _ _ E) as [->|[->| ->]]; reflexivity. }
  split; [exact Hs|].
  rewrite !generateSql_unfold. unfold registry. cbn [opt_formatters default].
  rewrite E. unfold rendered, renderedAt, statement. cbn [limit where_].
  rewrite Hs. reflexivity.
Qed.

(** ** Nodes that are their own ancestors *)

Lemma mapM_Return_elem {A B} (f : A -> outcome B) (l : list A) (k : list B) (x : A) :
  mapM f l = Return k -> x ∈ l -> exists y, f x = Return y.
Proof.
  intros E Hx. apply mapM_Return in E.
  induction E as [|a b l k Hab _ IH]; [by apply not_elem_of_nil in Hx|].
  apply elem_of_cons in Hx as [->|Hx]; eauto.
Qed.

Lemma edge_operand (h : Heap) (ms : gmap string nat) (w c : nat) (tag : BoolTag)
    (clauses : list nat) :
  h !! w = Some (OpBool tag clauses) -> c ∈ clauses -> edge h ms w c.
Proof. intros Hnode Hc. exists (OpBool tag clauses). auto. Qed.

Lemma edge_body (h : Heap) (ms : gmap string nat) (w macro : nat) (name : string) :
  h !! w = Some (OpMacro name) -> ms !! name = Some macro -> edge h ms w macro.
Proof.
  intros Hnode Hname. exists (OpMacro name). split; [assumption|].
  simpl. rewrite Hname. by left.
Qed.

Lemma leaf_no_edge (h : Heap) (ms : gmap string nat) (w c : nat)
    (node : SqlOperator) :
  h !! w = Some node -> children ms node = [] -> edge h ms w c -> False.
Proof.
  intros Hnode Hleaf (node' & Hnode' & Hc).
  rewrite Hnode in Hnode'. injection Hnode' as <-. rewrite Hleaf in Hc.
  by apply not_elem_of_nil in Hc.
Qed.

Lemma leaf_reaches (h : Heap) (ms : gmap string nat) (w a : nat)
    (node : SqlOperator) :
  h !! w = Some node -> children ms node = [] -> reaches h ms w a -> a = w.
Proof.
  intros Hnode Hleaf Hreach.
  destruct Hreach as [|w c a Hedge _]; [reflexivity|].
  destruct (leaf_no_edge h ms w c node Hnode Hleaf Hedge).
Qed.

Lemma leaf_not_ownAncestor (h : Heap) (ms : gmap string nat) (w : nat)
    (node : SqlOperator) :
  h !! w = Some node -> children ms node = [] -> ~ ownAncestor h ms w.
Proof.
  intros Hnode Hleaf Hcyc. unfold ownAncestor in Hcyc.
  inversion Hcyc as [? ? Hedge|? c ? Hedge _]; subst;
    exact (leaf_no_edge h ms w _ node Hnode Hleaf Hedge).
Qed.

Section Cycles.

Context (h : Heap) (f : SqlFormatter) (Hstd : standard f).

(** A node that renders is not on its ancestor path, and all its children
    render below it. *)
Lemma Return_children (w : nat) (meta : SqlFormatterMetadata) (s : rendering) :
  callOperator (closed h f) w meta = Return s ->
  (w ∉ visited meta)
  /\ forall c, edge h (macros meta) w c ->
       exists s', callOperator (closed h f) c (visit meta w) = Return s'.
Proof.
  rewrite callOperator_closed by assumption. unfold defaultFormatOperator.
  case_bool_decide as Hin; [discriminate|]. intros E.
  split; [assumption|]. intros c (node & Hnode & Hc).
  rewrite Hnode in E.
  destruct node as [key|tag clauses|clause|sign a b|sign a rest|tag v|name];
    simpl in Hc; try (by apply not_elem_of_nil in Hc).
  - apply bind_Return in E as (parts & Em & _).
    destruct (mapM_Return_elem _ _ _ c Em Hc) as (y & Ey).
    apply bind_Return in Ey as (s' & Es & _). eauto.
  - apply list_elem_of_singleton in Hc as ->.
    apply bind_Return in E as (s' & Es & _). eauto.
  - change (macros (visit meta w)) with (macros meta) in E.
    destruct (macros meta !! name) as [macro|]; [|by apply not_elem_of_nil in Hc].
    apply list_elem_of_singleton in Hc as ->. eauto.
Qed.

Lemma Return_reaches (ms : gmap string nat) (w n : nat) :
  rtc (edge h ms) w n ->
  forall meta s, macros meta = ms ->
    callOperator (closed h f) w meta = Return s ->
    exists meta' s', callOperator (closed h f) n meta' = Return s'
      /\ macros meta' = ms /\ visited meta ⊆ visited meta'.
Proof.
  induction 1 as [w|w c n Hedge _ IH]; intros meta s Hms E.
  - exists meta, s. auto.
  - apply Return_children in E as [_ Hc]. rewrite Hms in Hc.
    destruct (Hc c Hedge) as (s' & Es).
    destruct (IH (visit meta w) s' Hms Es) as (meta' & s'' & E' & Hms' & Hsub).
    exists meta', s''. split; [assumption|]. split; [assumption|].
    intros x Hx. apply Hsub. simpl. apply elem_of_app. by left.
Qed.

(** A node that is its own ancestor does not render. *)
Lemma Return_not_ownAncestor (n : nat) (meta : SqlFormatterMetadata) (s : rendering) :
  callOperator (closed h f) n meta = Return s ->
  ownAncestor h (macros meta) n -> False.
Proof.
  intros E Hcyc. unfold ownAncestor in Hcyc.
  assert (exists c, edge h (macros meta) n c /\ rtc (edge h (macros meta)) c n)
    as (c & Hedge & Hback).
  { inversion Hcyc as [? ? Hedge|? c ? Hedge Hrest]; subst.
    - exists n. split; [assumption|apply rtc_refl].
    - exists c. split; [assumption|by apply tc_rtc]. }
  apply Return_children in E as [_ Hc].
  destruct (Hc c Hedge) as (s' & Es).
  destruct (Return_reaches _ _ _ Hback (visit meta n) s' eq_refl Es)
    as (meta' & s'' & E' & _ & Hsub).
  apply Return_children in E' as [Hnot _]. apply Hnot, Hsub. simpl.
  apply elem_of_app. right. by left.
Qed.

(** No expression that contains a node that is its own ancestor renders. *)
Lemma Return_acyclic (w n : nat) (meta : SqlFormatterMetadata) (s : rendering) :
  callOperator (closed h f) w meta = Return s ->
  reaches h (macros meta) w n ->
  ownAncestor h (macros meta) n -> False.
Proof.
  intros E Hreach Hcyc.
  destruct (Return_reaches _ _ _ Hreach meta s eq_refl E) as (meta' & s' & E' & Hms & _).
  apply (Return_not_ownAncestor n meta' s' E'). rewrite Hms. assumption.
Qed.

End Cycles.

(** ** Which error a cycle gives *)

Lemma bind_textOrCircular {A B} (k : A -> outcome B) (m : outcome A) :
  textOrCircular m -> (forall a, textOrCircular (k a)) -> textOrCircular (m ≫= k).
Proof. destruct m; simpl; auto. Qed.

Lemma mapM_textOrCircular {A B} (f : A -> outcome B) (l : list A) :
  (forall x, x ∈ l -> textOrCircular (f x)) -> textOrCircular (mapM f l).
Proof.
  induction l as [|x l IH]; intros E; simpl; [exact I|].
  apply bind_textOrCircular; [apply E; left|].
  intros y. apply bind_textOrCircular; [|intros; exact I].
  apply IH. intros z Hz. apply E. by right.
Qed.

Lemma defaultFormatValue_resolves (B : Bundle) (v : SqlValue)
    (meta : SqlFormatterMetadata) :
  valueResolves (fields meta) v = true ->
  textOrCircular (defaultFormatValue B v meta).
Proof.
  destruct v; simpl; try (intros; exact I).
  destruct (falsyString _); [discriminate|intros; exact I].
Qed.

Lemma resolves_child (h : Heap) (ms : gmap string nat) (fs : gmap Z string)
    (w c : nat) :
  resolves h ms fs w -> edge h ms w c -> resolves h ms fs c.
Proof. intros Hres Hedge a Ha. apply Hres. by eapply rtc_l. Qed.

Lemma renderable_child (h : Heap) (ms : gmap string nat) (fs : gmap Z string)
    (w c : nat) :
  renderable h ms fs w -> edge h ms w c -> renderable h ms fs c.
Proof. intros Hres Hedge a Ha. apply Hres. by eapply rtc_l. Qed.

Lemma nodeResolves_nodeRenders (fs : gmap Z string) (ms : gmap string nat)
    (node : SqlOperator) :
  nodeResolves fs ms node = true -> nodeRenders fs ms node = true.
Proof.
  destruct node; simpl; auto. intros ->. reflexivity.
Qed.

Lemma resolves_renderable (h : Heap) (ms : gmap string nat) (fs : gmap Z string)
    (w : nat) :
  resolves h ms fs w -> renderable h ms fs w.
Proof.
  intros Hres a Ha. destruct (Hres a Ha) as (node & Hnode & Hok).
  exists node. split; [assumption|]. by apply nodeResolves_nodeRenders.
Qed.

Section Resolved.

Context (h : Heap) (f : SqlFormatter) (Hstd : standard f).

Lemma callOperator_renderable_slack (n : nat) :
  forall w meta, slack h (visited meta) <= n ->
    renderable h (macros meta) (fields meta) w ->
    textOrCircular (callOperator (closed h f) w meta).
Proof.
  induction n as [|n IH]; intros w meta Hn Hres;
    rewrite callOperator_closed by assumption; unfold defaultFormatOperator;
    (case_bool_decide as Hin; [reflexivity|]);
    destruct (Hres w (rtc_refl _ _)) as (node & Hnode & Hok);
    pose proof (slack_visit h _ w Hin (ltac:(eauto))) as Hlt; [lia|].
  rewrite Hnode.
  assert (Hv : forall v, valueResolves (fields meta) v = true ->
            textOrCircular (callValue (closed h f) v (visit meta w))).
  { intros v Hr. rewrite callValue_closed by assumption.
    by apply defaultFormatValue_resolves. }
  assert (Hc : forall c, c ∈ children (macros meta) node ->
            textOrCircular (callOperator (closed h f) c (visit meta w))).
  { intros c Hc. apply IH; [simpl; lia|].
    apply (renderable_child h _ _ w); [assumption|]. exists node. auto. }
  destruct node as [key|tag clauses|clause|sign a b|sign a rest|tag v|name];
    simpl in Hok, Hc.
  - apply bind_textOrCircular; [by apply Hv|intros; exact I].
  - apply bind_textOrCircular; [|intros; exact I].
    apply mapM_textOrCircular. intros c Hin'.
    apply bind_textOrCircular; [by apply Hc|intros; exact I].
  - apply bind_textOrCircular; [|intros; exact I]. apply Hc. by left.
  - apply andb_true_iff in Hok as [Ha Hb].
    apply bind_textOrCircular; [by apply Hv|]. intros sa.
    apply bind_textOrCircular; [by apply Hv|intros; exact I].
  - apply andb_true_iff in Hok as [Ha Hrest].
    assert (Hm : textOrCircular
              (mapM (fun x => callValue (closed h f) x (visit meta w)) rest)).
    { apply mapM_textOrCircular. intros x Hx. apply Hv.
      rewrite forallb_forall in Hrest. apply Hrest. by apply list_elem_of_In. }
    destruct rest as [|b [|b' rest]];
      (apply bind_textOrCircular; [by apply Hv|]; intros sa;
       apply bind_textOrCircular; [|intros; exact I]);
      try exact Hm.
    apply Hv. simpl in Hrest. by apply andb_true_iff in Hrest as [? _].
  - destruct tag; (apply bind_textOrCircular; [by apply Hv|intros; exact I]).
  - change (macros (visit meta w)) with (macros meta).
    destruct (macros meta !! name) as [macro|] eqn:Hm.
    + apply Hc. by left.
    + rewrite bool_decide_eq_false_2 in Hok by (intros [? ?]; discriminate).
      simpl in Hok. rewrite Hok. exact I.
Qed.

(** When everything at or below [w] is found, rendering [w] returns or
    reports a circular dependency. *)
Lemma callOperator_renderable (w : nat) (meta : SqlFormatterMetadata) :
  renderable h (macros meta) (fields meta) w ->
  textOrCircular (callOperator (closed h f) w meta).
Proof. apply (callOperator_renderable_slack (slack h (visited meta))). lia. Qed.

(** When every reference below [w] resolves, rendering [w] returns a text
    or reports a circular dependency. *)
Lemma callOperator_resolves (w : nat) (meta : SqlFormatterMetadata) :
  resolves h (macros meta) (fields meta) w ->
  textOrCircular (callOperator (closed h f) w meta).
Proof. intros Hres. by apply callOperator_renderable, resolves_renderable. Qed.

End Resolved.

(** ** Inlining a macro *)

Lemma agrees_refl {A} (o : outcome A) : agrees o o.
Proof. destruct o; simpl; auto. Qed.

Lemma bind_agrees {A B} (k k' : A -> outcome B) (m m' : outcome A) :
  agrees m m' -> (forall a, agrees (k a) (k' a)) -> agrees (m ≫= k) (m' ≫= k').
Proof.
  destruct m as [a|e|]; simpl.
  - intros -> Hk. apply Hk.
  - intros [->| ->] _; simpl; auto.
  - auto.
Qed.

Lemma mapM_agrees {A B} (f g : A -> outcome B) (l : list A) :
  (forall x, x ∈ l -> agrees (f x) (g x)) -> agrees (mapM f l) (mapM g l).
Proof.
  induction l as [|x l IH]; intros E; simpl; [reflexivity|].
  apply bind_agrees; [apply E; left|].
  intros y. apply bind_agrees; [|intros; reflexivity].
  apply IH. intros z Hz. apply E. by right.
Qed.

Lemma defaultFormatValue_fields (B B' : Bundle) (v : SqlValue)
    (meta meta' : SqlFormatterMetadata) :
  callColumn B = callColumn B' -> fields meta = fields meta' ->
  defaultFormatValue B v meta = defaultFormatValue B' v meta'.
Proof. intros Ec Ef. destruct v; simpl; rewrite ?Ec, ?Ef; reflexivity. Qed.

(** The same array, stored at two places and rendered below two ancestor
    paths, gives outcomes that agree when the values and the children do. *)
Lemma defaultFormatOperator_agrees (B B' : Bundle) (h1 h2 : Heap) (w1 w2 : nat)
    (meta1 meta2 : SqlFormatterMetadata) (node : SqlOperator) :
  h1 !! w1 = Some node -> h2 !! w2 = Some node ->
  w1 ∉ visited meta1 -> w2 ∉ visited meta2 ->
  macros meta1 = macros meta2 ->
  (forall v, callValue B v (visit meta1 w1) = callValue B' v (visit meta2 w2)) ->
  (forall c, c ∈ children (macros meta1) node ->
     agrees (callOperator B c (visit meta1 w1)) (callOperator B' c (visit meta2 w2))) ->
  (forall c, isBool node = true -> c ∈ children (macros meta1) node ->
     needsWrapped h1 c = needsWrapped h2 c) ->
  agrees (defaultFormatOperator B h1 w1 meta1) (defaultFormatOperator B' h2 w2 meta2).
Proof.
  intros H1 H2 Hw1 Hw2 Hms Hv Hc Hwrap. unfold defaultFormatOperator.
  rewrite !bool_decide_eq_false_2 by assumption. rewrite H1, H2.
  destruct node as [key|tag clauses|clause|sign a b|sign a rest|tag v|name];
    simpl in Hc, Hwrap.
  - rewrite Hv. apply agrees_refl.
  - apply bind_agrees; [|intros; apply agrees_refl].
    apply mapM_agrees. intros c Hin.
    apply bind_agrees; [by apply Hc|]. intros s.
    rewrite (Hwrap c eq_refl Hin). apply agrees_refl.
  - apply bind_agrees; [|intros; apply agrees_refl]. apply Hc. by left.
  - rewrite !Hv. apply agrees_refl.
  - assert (Em : mapM (fun x => callValue B x (visit meta1 w1)) rest
                 = mapM (fun x => callValue B' x (visit meta2 w2)) rest)
      by (apply mapM_ext_in; intros; apply Hv).
    destruct rest as [|b [|b' rest]]; rewrite ?Hv, ?Em; apply agrees_refl.
  - destruct tag; rewrite Hv; apply agrees_refl.
  - change (macros (visit meta1 w1)) with (macros meta1).
    change (macros (visit meta2 w2)) with (macros meta2).
    rewrite <- Hms. destruct (macros meta1 !! name) as [macro|].
    + apply Hc. by left.
    + apply agrees_refl.
Qed.

Section Inline.

Context (h : Heap) (f : SqlFormatter) (Hstd : standard f).
Context (ms : gmap string nat) (r b : nat) (name : string) (body : SqlOperator).
Context (Hr : h !! r = Some (OpMacro name)).
Context (Hname : ms !! name = Some b).
Context (Hb : h !! b = Some body).
Context (Hparen : isBool body = false \/ ~ boolOperand h r).

Lemma inline_lookup_ne (w : nat) : w <> r -> inline h r body !! w = h !! w.
Proof. intros Hw. unfold inline. by apply lookup_insert_ne. Qed.

Lemma inline_lookup_eq : inline h r body !! r = Some body.
Proof. unfold inline. apply lookup_insert_eq. Qed.

Lemma inline_needsWrapped (p c : nat) (node : SqlOperator)
    (ms' : gmap string nat) :
  h !! p = Some node -> isBool node = true -> c ∈ children ms' node ->
  needsWrapped h c = needsWrapped (inline h r body) c.
Proof.
  intros Hp Hbool Hc. destruct node as [|tag clauses| | | | |]; try discriminate.
  simpl in Hc. unfold needsWrapped. destruct (decide (c = r)) as [->|Hne].
  - rewrite inline_lookup_eq, Hr. destruct Hparen as [Hbody|Hno].
    + change (false = isBool body). congruence.
    + exfalso. apply Hno. exists p, tag, clauses. auto.
  - by rewrite inline_lookup_ne.
Qed.

Lemma inline_callValue (v : SqlValue) (meta meta' : SqlFormatterMetadata) :
  fields meta = fields meta' ->
  callValue (closed h f) v meta = callValue (closed (inline h r body) f) v meta'.
Proof.
  intros Ef. rewrite !callValue_closed by assumption.
  apply defaultFormatValue_fields; [|assumption].
  unfold closed. rewrite !callColumn_methods. reflexivity.
Qed.

Lemma inline_agrees_slack (n : nat) :
  forall w meta meta',
    slack h (visited meta) <= n ->
    fields meta = fields meta' -> macros meta = ms -> macros meta' = ms ->
    visited meta' ⊆ visited meta ->
    agrees (callOperator (closed h f) w meta)
           (callOperator (closed (inline h r body) f) w meta').
Proof.
  induction n as [|n IH]; intros w meta meta' Hn Ef Hms Hms' Hsub;
    rewrite (callOperator_closed h f Hstd w meta);
    destruct (decide (w ∈ visited meta)) as [Hin|Hin];
    try (unfold defaultFormatOperator; rewrite bool_decide_eq_true_2 by assumption;
         simpl; auto; fail);
    (assert (Hin' : w ∉ visited meta') by (intros Hx; apply Hin, Hsub, Hx));
    rewrite (callOperator_closed _ f Hstd w meta');
    (destruct (h !! w) as [node|] eqn:Hnode;
     [|unfold defaultFormatOperator;
       rewrite !bool_decide_eq_false_2 by assumption;
       rewrite inline_lookup_ne by congruence; rewrite Hnode; simpl; auto]);
    pose proof (slack_visit h _ w Hin (ltac:(eauto))) as Hlt; [lia|].
  destruct (decide (w = r)) as [->|Hne].
  - (* the macro reference itself *)
    rewrite Hr in Hnode. injection Hnode as <-.
    assert (E1 : defaultFormatOperator (closed h f) h r meta
                 = callOperator (closed h f) b (visit meta r)).
    { unfold defaultFormatOperator. rewrite bool_decide_eq_false_2 by assumption.
      rewrite Hr. change (macros (visit meta r)) with (macros meta).
      rewrite Hms, Hname. reflexivity. }
    rewrite E1, (callOperator_closed h f Hstd b).
    destruct (decide (b ∈ visited (visit meta r))) as [Hbin|Hbin].
    { unfold defaultFormatOperator at 1.
      rewrite bool_decide_eq_true_2 by assumption. simpl. auto. }
    pose proof (slack_visit h _ b Hbin (ltac:(eauto))) as Hlt2.
    apply (defaultFormatOperator_agrees _ _ _ _ _ _ _ _ body);
      try assumption.
    + apply inline_lookup_eq.
    + simpl. congruence.
    + intros v. apply inline_callValue. simpl. assumption.
    + intros c Hc. destruct n as [|n]; [simpl in Hlt2, Hlt; lia|].
      apply IH; simpl; try assumption; [simpl in Hlt2, Hlt; lia|].
      intros x Hx. apply elem_of_app in Hx as [Hx|Hx].
      * apply elem_of_app. left. apply elem_of_app. left. by apply Hsub.
      * apply elem_of_app. left. apply elem_of_app. by right.
    + intros c Hbool Hc. by apply (inline_needsWrapped b c body (macros (visit meta r))).
  - apply (defaultFormatOperator_agrees _ _ _ _ _ _ _ _ node);
      try assumption.
    + by rewrite inline_lookup_ne.
    + congruence.
    + intros v. apply inline_callValue. simpl. assumption.
    + intros c Hc. apply IH; simpl; try assumption; [lia|].
      intros x Hx. apply elem_of_app in Hx as [Hx|Hx]; apply elem_of_app; auto.
    + intros c Hbool Hc. by apply (inline_needsWrapped w c node (macros meta)).
Qed.

(** Below the same fields and macros, rendering in the store with the
    macro inlined agrees with rendering in the original store. *)
Lemma inline_agrees (w : nat) (meta : SqlFormatterMetadata) :
  macros meta = ms ->
  agrees (callOperator (closed h f) w meta)
         (callOperator (closed (inline h r body) f) w meta).
Proof.
  intros Hms. apply (inline_agrees_slack (slack h (visited meta))); auto.
Qed.

End Inline.

Lemma builtIn_statement_agrees (dialect : string) (f : SqlFormatter) (B B' : Bundle)
    (sql : SqlStatement) (meta : SqlFormatterMetadata) :
  builtInFormatters !! dialect = Some f ->
  (forall w, agrees (callOperator B w meta) (callOperator B' w meta)) ->
  agrees (formatStatement f B sql meta) (formatStatement f B' sql meta).
Proof.
  intros E HB.
  assert (Hp : forall parts, agrees (pushWhere B parts sql meta) (pushWhere B' parts sql meta)).
  { intros parts. unfold pushWhere. destruct (sql_where sql) as [w|].
    - apply bind_agrees; [apply HB|intros; apply agrees_refl].
    - apply agrees_refl. }
  destruct (builtIn_cases _ _ E) as [->|[->| ->]];
    cbn [formatStatement sqlserver postgres mysql defaultFormatter];
    [unfold sqlserverFormatStatement|unfold defaultFormatStatement..];
    (apply bind_agrees; [apply Hp|intros; apply agrees_refl]).
Qed.

(** C3, as amended. Take a macro reference [r] whose name the macro table
    maps to an array [body], where [body] is not an [and]/[or] array or [r]
    is not an operand of an [and]/[or] node.  Unless compiling reports a
    circular dependency, compiling with [r] replaced by a copy of [body]
    gives the same result, text or error, as compiling with the reference
    in place. Replacing one reference at a time covers any nesting of
    macro references. *)
Theorem macro_inline_same_result (dialect : string) (f : SqlFormatter)
    (tableName : option string) (macros : gmap string nat) (h : Heap)
    (fields : gmap Z string) (query : SqlQuery) (r b : nat) (name : string)
    (body : SqlOperator) (res : Result) :
  builtInFormatters !! dialect = Some f ->
  h !! r = Some (OpMacro name) ->
  macros !! name = Some b ->
  h !! b = Some body ->
  isBool body = false \/ ~ boolOperand h r ->
  generateSql {| tableName := tableName; opt_macros := Some macros;
                 opt_formatters := None |} h dialect fields query = Some res ->
  error res <> Some CircularDependency ->
  generateSql {| tableName := tableName; opt_macros := Some macros;
                 opt_formatters := None |} (inline h r body) dialect fields query
  = Some res.
Proof.
  intros E Hr Hname Hb Hparen Hres Herr.
  pose proof (builtIn_standard _ _ E) as Hstd.
  change {| tableName := tableName; opt_macros := Some macros;
            opt_formatters := None |} with (builtInOptions tableName macros) in *.
  rewrite (generateSql_builtIn _ _ _ _ _ _ _ E) in Hres.
  rewrite (generateSql_builtIn _ _ _ _ _ _ _ E).
  pose proof (builtIn_statement_agrees dialect f (closed h f)
    (closed (inline h r body) f)
    (statement (builtInOptions tableName macros) query)
    (initial (builtInOptions tableName macros) fields) E) as Hag.
  assert (HB : forall w,
    agrees (callOperator (closed h f) w (initial (builtInOptions tableName macros) fields))
           (callOperator (closed (inline h r body) f) w
              (initial (builtInOptions tableName macros) fields))).
  { intros w. by apply (inline_agrees h f Hstd macros r b name body). }
  specialize (Hag HB).
  destruct (formatStatement f (closed h f) _ _) as [s|e|]; simpl in Hag, Hres.
  - rewrite Hag. exact Hres.
  - injection Hres as <-. destruct Hag as [->|Hag]; [by destruct Herr|].
    rewrite Hag. reflexivity.
  - discriminate.
Qed.

(** ** The checks of whole stores *)

Lemma storeResolves_sound (h : Heap) (ms : gmap string nat) (fs : gmap Z string)
    (w : nat) :
  storeResolves h ms fs = true -> is_Some (h !! w) -> resolves h ms fs w.
Proof.
  intros Hs Hw. unfold storeResolves in Hs. rewrite forallb_forall in Hs.
  assert (Hentry : forall a node, h !! a = Some node ->
            nodeResolves fs ms node = true
            /\ forall c, c ∈ children ms node -> is_Some (h !! c)).
  { intros a node Ha.
    assert (Hin : In (a, node) (map_to_list h))
      by (apply list_elem_of_In, elem_of_map_to_list; exact Ha).
    apply Hs in Hin. simpl in Hin. apply andb_true_iff in Hin as [Hn Hc].
    split; [assumption|]. intros c Hcin. rewrite forallb_forall in Hc.
    apply list_elem_of_In, Hc in Hcin. by apply bool_decide_eq_true in Hcin. }
  intros a Hreach.
  assert (Ha : is_Some (h !! a)).
  { induction Hreach as [x|x y z (node & Hx & Hy) _ IH]; [assumption|].
    apply IH. by apply (Hentry x node). }
  destruct Ha as [node Ha]. exists node. split; [assumption|].
  by apply (Hentry a node).
Qed.

Lemma noBoolOperand_sound (h : Heap) (r : nat) :
  noBoolOperand h r = true -> ~ boolOperand h r.
Proof.
  intros Hs (p & tag & clauses & Hp & Hr). unfold noBoolOperand in Hs.
  rewrite forallb_forall in Hs.
  assert (Hin : In (p, OpBool tag clauses) (map_to_list h))
    by (apply list_elem_of_In, elem_of_map_to_list; exact Hp).
  apply Hs in Hin. simpl in Hin. by rewrite bool_decide_eq_true_2 in Hin.
Qed.

(** ** The cases of the repository's tests *)

Section Tests.

Import Fixtures.

Example test_is_null :
  generateSql data_table (only (OpEq TEq (VField 3) [VNull])) "postgres" fields at0
  = ok ("SELECT * FROM data WHERE " +:+ q "date_joined" +:+ " IS NULL;").
Proof. vm_compute. reflexivity. Qed.

Example test_greater :
  generateSql data_table (only (OpCmp TGt (VField 4) (VNumber 35))) "postgres" fields at0
  = ok ("SELECT * FROM data WHERE " +:+ q "age" +:+ " > 35;").
Proof. vm_compute. reflexivity. Qed.

Example test_and :
  generateSql data_table
    {[ 0 := OpBool TAnd [1; 2];
       1 := OpCmp TLt (VField 1) (VNumber 5);
       2 := OpEq TEq (VField 2) [VString "joe"] ]} "postgres" fields at0
  = ok ("SELECT * FROM data WHERE " +:+ q "id" +:+ " < 5 AND " +:+ q "name"
        +:+ " = 'joe';").
Proof. vm_compute. reflexivity. Qed.

Example test_or :
  generateSql data_table
    {[ 0 := OpBool TOr [1; 2];
       1 := OpEq TNe (VField 3) [VString "2015-11-01"];
       2 := OpEq TEq (VField 1) [VNumber 456] ]} "postgres" fields at0
  = ok ("SELECT * FROM data WHERE " +:+ q "date_joined" +:+ " <> '2015-11-01' OR "
        +:+ q "id" +:+ " = 456;").
Proof. vm_compute. reflexivity. Qed.

Example test_nested :
  generateSql data_table nested "postgres" fields at0
  = ok ("SELECT * FROM data WHERE " +:+ q "date_joined" +:+ " IS NOT NULL AND ("
        +:+ q "age" +:+ " > 25 OR " +:+ q "name" +:+ " = 'Jerry');").
Proof. vm_compute. reflexivity. Qed.

Example test_membership :
  generateSql data_table
    (only (OpEq TEq (VField 4) [VNumber 25; VNumber 26; VNumber 27]))
    "postgres" fields at0
  = ok ("SELECT * FROM data WHERE " +:+ q "age" +:+ " IN (25, 26, 27);").
Proof. vm_compute. reflexivity. Qed.

Example test_mysql_limit :
  generateSql data_table (only (OpEq TEq (VField 2) [VString "cam"])) "mysql" fields
    {| limit := Some 10%Z; where_ := Some 0 |}
  = ok "SELECT * FROM data WHERE `name` = 'cam' LIMIT 10;".
Proof. vm_compute. reflexivity. Qed.

Example test_postgres_limit :
  generateSql data_table ∅ "postgres" fields {| limit := Some 20%Z; where_ := None |}
  = ok "SELECT * FROM data LIMIT 20;".
Proof. vm_compute. reflexivity. Qed.

Example test_sqlserver_limit :
  generateSql data_table ∅ "sqlserver" fields {| limit := Some 20%Z; where_ := None |}
  = ok "SELECT TOP 20 * FROM data;".
Proof. vm_compute. reflexivity. Qed.

Example test_not :
  generateSql data_table
    {[ 0 := OpNot 1; 1 := OpCmp TGt (VField 4) (VNumber 35) ]}
    "postgres" fields at0
  = ok ("SELECT * FROM data WHERE NOT (" +:+ q "age" +:+ " > 35);").
Proof. vm_compute. reflexivity. Qed.

Example test_invalid_field :
  generateSql data_table (only (OpCmp TGt (VField 999) (VNumber 35))) "postgres" fields at0
  = failure (UnknownField 999)
  /\ message (UnknownField 999) = Some "Unknown field number: 999".
Proof. split; vm_compute; reflexivity. Qed.

Example test_macro :
  generateSql (with_macros joe_macros) joe "postgres" fields at0
  = ok ("SELECT * FROM data WHERE " +:+ q "id" +:+ " < 5 AND " +:+ q "name"
        +:+ " = 'joe';").
Proof. vm_compute. reflexivity. Qed.

Example test_nested_macros :
  generateSql (with_macros adult_joe_macros) adult_joe "postgres" fields at0
  = ok ("SELECT * FROM data WHERE " +:+ q "id" +:+ " < 5 AND " +:+ q "name"
        +:+ " = 'joe' AND " +:+ q "age" +:+ " > 18;").
Proof. vm_compute. reflexivity. Qed.

Example test_invalid_macro :
  generateSql data_table (and_macro "is_adult_joe") "postgres" fields at0
  = failure (MacroNotFound "is_adult_joe")
  /\ message (MacroNotFound "is_adult_joe") = Some "Macro not found: is_adult_joe".
Proof. split; vm_compute; reflexivity. Qed.

Example test_circular_macros :
  generateSql (with_macros decent_macros) decent "postgres" fields at0
  = failure CircularDependency.
Proof. vm_compute. reflexivity. Qed.

Example test_reused :
  generateSql data_table reused "postgres" fields at0
  = ok ("SELECT * FROM data WHERE " +:+ q "id" +:+ " AND " +:+ q "id" +:+ ";").
Proof. vm_compute. reflexivity. Qed.

Example test_self_referential :
  generateSql data_table selfReferential "postgres" fields at0
  = failure CircularDependency.
Proof. vm_compute. reflexivity. Qed.

Example test_unknown_dialect :
  generateSql data_table ∅ "oracle" fields {| limit := None; where_ := None |}
  = failure (UnknownDialect "oracle").
Proof. vm_compute. reflexivity. Qed.

Example test_zero_limit :
  generateSql data_table ∅ "postgres" fields {| limit := Some 0%Z; where_ := None |}
  = ok "SELECT * FROM data;"
  /\ generateSql data_table ∅ "sqlserver" fields {| limit := Some 0%Z; where_ := None |}
     = ok "SELECT * FROM data;".
Proof. split; vm_compute; reflexivity. Qed.

(** A macro name that is a member of [Object.prototype]: the operand
    renders to [undefined], which [join] writes as the empty string and a
    template literal as [undefined]; an own property of that name is used
    first. *)
Example test_inherited_macro :
  generateSql data_table (and_macro "valueOf") "postgres" fields at0
  = ok ("SELECT * FROM data WHERE " +:+ q "id" +:+ " < 5 AND ;")
  /\ generateSql data_table {[ 0 := OpNot 1; 1 := OpMacro "constructor" ]}
       "postgres" fields at0
     = ok "SELECT * FROM data WHERE NOT (undefined);"
  /\ generateSql (with_macros {[ "valueOf" := 1 ]}) (and_macro "valueOf")
       "postgres" fields at0
     = ok ("SELECT * FROM data WHERE " +:+ q "id" +:+ " < 5 AND " +:+ q "id"
           +:+ " < 5;").
Proof. repeat split; vm_compute; reflexivity. Qed.

Example test_inherited_dialect :
  generateSql data_table ∅ "hasOwnProperty" fields
    {| limit := None; where_ := None |}
  = failure NotAFunction
  /\ message NotAFunction = Some "formatter.formatStatement is not a function".
Proof. split; vm_compute; reflexivity. Qed.

Example test_extension :
  generateSql extended ∅ "thrower" fields {| limit := None; where_ := None |}
  = failure UnknownError
  /\ message UnknownError = Some "Unknown error"
  /\ generateSql extended ∅ "bracketed" fields
       {| limit := Some 3%Z; where_ := None |}
     = ok "[SELECT * FROM data LIMIT 3];"
  /\ generateSql extended ∅ "postgres" fields {| limit := None; where_ := None |}
     = failure (UnknownDialect "postgres").
Proof. repeat split; vm_compute; reflexivity. Qed.

End Tests.

(** ** Instances of the theorems, and inputs on which statements of the
    specification fail *)

(** C1 at the equalities of the repository's tests. *)
Lemma equality_forms_witness :
  callOperator (closed (Fixtures.only (OpEq TEq (VField 3) [VNull])) postgres) 0
    Fixtures.root
  = Return (Fixtures.q "date_joined" +:+ " IS NULL")
  /\ callOperator
       (closed (Fixtures.only (OpEq TNe (VField 3) [VString "2015-11-01"])) postgres)
       0 Fixtures.root
     = Return (Fixtures.q "date_joined" +:+ " <> '2015-11-01'")
  /\ callOperator
       (closed (Fixtures.only (OpEq TNe (VField 4) [VNumber 25; VNumber 26; VNumber 27]))
          postgres) 0 Fixtures.root
     = Return (Fixtures.q "age" +:+ " NOT IN (25, 26, 27)").
Proof.
  split; [|split].
  - destruct (equality_forms (Fixtures.only (OpEq TEq (VField 3) [VNull])) postgres 0
                TEq (VField 3) [VNull] Fixtures.root (Fixtures.q "date_joined"))
      as (H1 & _ & _);
      [split; reflexivity|vm_compute; reflexivity|apply not_elem_of_nil
      |vm_compute; reflexivity|].
    exact (H1 eq_refl).
  - destruct (equality_forms
                (Fixtures.only (OpEq TNe (VField 3) [VString "2015-11-01"])) postgres 0
                TNe (VField 3) [VString "2015-11-01"] Fixtures.root
                (Fixtures.q "date_joined"))
      as (_ & H2 & _);
      [split; reflexivity|vm_compute; reflexivity|apply not_elem_of_nil
      |vm_compute; reflexivity|].
    apply (H2 (VString "2015-11-01") "'2015-11-01'");
      [reflexivity|discriminate|vm_compute; reflexivity].
  - destruct (equality_forms
                (Fixtures.only (OpEq TNe (VField 4) [VNumber 25; VNumber 26; VNumber 27]))
                postgres 0
                TNe (VField 4) [VNumber 25; VNumber 26; VNumber 27] Fixtures.root
                (Fixtures.q "age"))
      as (_ & _ & H3);
      [split; reflexivity|vm_compute; reflexivity|apply not_elem_of_nil
      |vm_compute; reflexivity|].
    apply (H3 ["25"; "26"; "27"]); [simpl; lia|].
    repeat constructor.
Defined.

(** C3 as stated fails on the nested macros of the repository's test: the
    reference to [is_adult_joe] renders without parentheses, and the same
    expression with the body of the macro in its place renders with them. *)
Lemma macro_reference_not_parenthesized :
  Fixtures.adult_joe !! 2 = Some (OpMacro "is_adult_joe")
  /\ Fixtures.adult_joe_macros !! "is_adult_joe" = Some 12
  /\ Fixtures.adult_joe !! 12 = Some (OpBool TAnd [13; 14])
  /\ generateSql (Fixtures.with_macros Fixtures.adult_joe_macros) Fixtures.adult_joe
       "postgres" Fixtures.fields Fixtures.at0
     = Fixtures.ok ("SELECT * FROM data WHERE " +:+ Fixtures.q "id" +:+ " < 5 AND "
                    +:+ Fixtures.q "name" +:+ " = 'joe' AND " +:+ Fixtures.q "age"
                    +:+ " > 18;")
  /\ generateSql (Fixtures.with_macros Fixtures.adult_joe_macros)
       (inline Fixtures.adult_joe 2 (OpBool TAnd [13; 14]))
       "postgres" Fixtures.fields Fixtures.at0
     = Fixtures.ok ("SELECT * FROM data WHERE " +:+ Fixtures.q "id" +:+ " < 5 AND ("
                    +:+ Fixtures.q "name" +:+ " = 'joe' AND " +:+ Fixtures.q "age"
                    +:+ " > 18);").
Proof. repeat split; vm_compute; reflexivity. Qed.

(** C3, amended, at the macro of the repository's test, whose body is an
    equality, and at a reference to an [or] macro under a [not]. *)
Lemma macro_inline_same_result_witness :
  generateSql (Fixtures.with_macros Fixtures.joe_macros)
    (inline Fixtures.joe 2 (OpEq TEq (VField 2) [VString "joe"]))
    "postgres" Fixtures.fields Fixtures.at0
  = Fixtures.ok ("SELECT * FROM data WHERE " +:+ Fixtures.q "id" +:+ " < 5 AND "
                 +:+ Fixtures.q "name" +:+ " = 'joe';")
  /\ generateSql (Fixtures.with_macros Fixtures.either_macros)
       (inline Fixtures.not_either 1 (OpBool TOr [3; 4]))
       "mysql" Fixtures.fields Fixtures.at0
     = Fixtures.ok "SELECT * FROM data WHERE NOT (`id` OR `name`);".
Proof.
  split.
  - apply (macro_inline_same_result "postgres" postgres (Some "data")
             Fixtures.joe_macros Fixtures.joe Fixtures.fields Fixtures.at0
             2 10 "is_joe" (OpEq TEq (VField 2) [VString "joe"])).
    + reflexivity.
    + reflexivity.
    + reflexivity.
    + reflexivity.
    + left. reflexivity.
    + vm_compute. reflexivity.
    + discriminate.
  - apply (macro_inline_same_result "mysql" mysql (Some "data")
             Fixtures.either_macros Fixtures.not_either Fixtures.fields Fixtures.at0
             1 2 "either" (OpBool TOr [3; 4])).
    + reflexivity.
    + reflexivity.
    + reflexivity.
    + reflexivity.
    + right. apply noBoolOperand_sound. vm_compute. reflexivity.
    + vm_compute. reflexivity.
    + discriminate.
Defined.

(** C4 at the nested expression of the repository's test: the [or] operand
    is put in parentheses and the null check is not. *)
Lemma bool_parenthesizes_bool_children_witness :
  callOperator (closed Fixtures.nested postgres) 0 Fixtures.root
  = Return (Fixtures.q "date_joined" +:+ " IS NOT NULL AND (" +:+ Fixtures.q "age"
            +:+ " > 25 OR " +:+ Fixtures.q "name" +:+ " = 'Jerry')").
Proof.
  apply (proj1 (bool_parenthesizes_bool_children Fixtures.nested postgres 0 TAnd
                  [1; 2] Fixtures.root
                  [Fixtures.q "date_joined" +:+ " IS NOT NULL";
                   Fixtures.q "age" +:+ " > 25 OR " +:+ Fixtures.q "name"
                   +:+ " = 'Jerry'"]
                  (conj eq_refl eq_refl) eq_refl (not_elem_of_nil 0)
                  ltac:(repeat constructor; vm_compute; reflexivity))).
Defined.

(** C6 at the negation of the repository's test. *)
Lemma not_wraps_child_witness :
  callOperator
    (closed {[ 0 := OpNot 1; 1 := OpCmp TGt (VField 4) (VNumber 35) ]} postgres)
    0 Fixtures.root
  = Return ("NOT (" +:+ Fixtures.q "age" +:+ " > 35)").
Proof.
  apply (not_wraps_child _ postgres 0 1 Fixtures.root
           (Fixtures.q "age" +:+ " > 35")).
  - split; reflexivity.
  - reflexivity.
  - apply not_elem_of_nil.
  - vm_compute. reflexivity.
Defined.

(** C7 at the reused field reference of the repository's test. *)
Lemma sibling_reuse_renders_twice_witness :
  callOperator (closed Fixtures.reused postgres) 0 Fixtures.root
  = Return (Fixtures.q "id" +:+ " AND " +:+ Fixtures.q "id").
Proof.
  destruct (sibling_reuse_renders_twice Fixtures.reused postgres 0 1 TAnd
              Fixtures.root) as [Htwice _].
  - split; reflexivity.
  - reflexivity.
  - apply not_elem_of_nil.
  - apply (Htwice (Fixtures.q "id")). vm_compute. reflexivity.
Defined.

(** C8. The macro reference [['macro', 'toString']], compiled on a
    transpiler whose macro table has no [toString], does not fail with
    [MacroNotFound]: the name is found as a member that the macro table
    inherits from [Object.prototype], the reference renders to [undefined],
    and the call succeeds with a text. *)
Theorem inherited_macro_name_is_found :
  (∅ : gmap string nat) !! "toString" = None
  /\ callOperator (closed (Fixtures.only (OpMacro "toString")) postgres) 0
       Fixtures.root
     = Return Undefined
  /\ generateSql (Fixtures.with_macros ∅) (Fixtures.only (OpMacro "toString"))
       "postgres" Fixtures.fields Fixtures.at0
     = Some {| success := true; error := None;
               data := Some "SELECT * FROM data WHERE undefined;" |}.
Proof. repeat split; vm_compute; reflexivity. Qed.

(** C9 at the three built-in dialects. *)
Lemma zero_limit_is_no_limit_witness :
  generateSql Fixtures.data_table ∅ "postgres" Fixtures.fields
    {| limit := Some 0%Z; where_ := None |}
  = generateSql Fixtures.data_table ∅ "postgres" Fixtures.fields
      {| limit := None; where_ := None |}
  /\ generateSql Fixtures.data_table ∅ "mysql" Fixtures.fields
       {| limit := Some 0%Z; where_ := None |}
     = generateSql Fixtures.data_table ∅ "mysql" Fixtures.fields
         {| limit := None; where_ := None |}
  /\ generateSql Fixtures.data_table ∅ "sqlserver" Fixtures.fields
       {| limit := Some 0%Z; where_ := None |}
     = generateSql Fixtures.data_table ∅ "sqlserver" Fixtures.fields
         {| limit := None; where_ := None |}.
Proof.
  split; [|split].
  - exact (proj2 (zero_limit_is_no_limit "postgres" postgres (Some "data") None ∅
                    Fixtures.fields None eq_refl)).
  - exact (proj2 (zero_limit_is_no_limit "mysql" mysql (Some "data") None ∅
                    Fixtures.fields None eq_refl)).
  - exact (proj2 (zero_limit_is_no_limit "sqlserver" sqlserver (Some "data") None ∅
                    Fixtures.fields None eq_refl)).
Defined.

(** C10 at a field map whose entry 7 is the empty string. *)
Lemma empty_column_name_is_unknown_witness :
  generateSql (Fixtures.with_macros ∅) (Fixtures.only (OpField 7)) "mysql"
    (<[7%Z := ""]> Fixtures.fields) Fixtures.at0
  = Some {| success := false; error := Some (UnknownField 7); data := None |}.
Proof.
  apply (proj2 (empty_column_name_is_unknown "mysql" mysql (Some "data") ∅
                  (Fixtures.only (OpField 7)) (<[7%Z := ""]> Fixtures.fields)
                  None 0 7%Z eq_refl (lookup_insert_eq _ _ _) eq_refl)).
Defined.

(** ** What an error report says *)

Lemma bind_Throw {A B} (k : A -> outcome B) (m : outcome A) (e : Error) :
  m ≫= k = Throw e -> m = Throw e \/ exists a, m = Return a /\ k a = Throw e.
Proof.
  destruct m as [a|e0|]; simpl; intros E; [eauto|left; congruence|discriminate].
Qed.

Lemma mapM_Throw {A B} (f : A -> outcome B) (l : list A) (e : Error) :
  mapM f l = Throw e -> exists x, x ∈ l /\ f x = Throw e.
Proof.
  induction l as [|x l IH]; simpl; [discriminate|]. intros E.
  apply bind_Throw in E as [E|(y & _ & E)].
  - exists x. split; [by left|assumption].
  - apply bind_Throw in E as [E|(k & _ & E)]; [|discriminate].
    destruct (IH E) as (z & Hz & Ez). exists z. split; [by right|assumption].
Qed.

Lemma defaultFormatValue_Throw (B : Bundle) (v : SqlValue)
    (meta : SqlFormatterMetadata) (e : Error) :
  defaultFormatValue B v meta = Throw e ->
  exists key, v = VField key /\ e = UnknownField key
              /\ falsyString (fields meta !! key) = true.
Proof.
  destruct v as [key| | |]; simpl; try discriminate.
  destruct (falsyString (fields meta !! key)) eqn:Ef; [|discriminate].
  intros [= <-]. eauto.
Qed.

Lemma justified_child (h : Heap) (ms : gmap string nat) (fs : gmap Z string)
    (w c : nat) (e : Error) :
  edge h ms w c -> justified h ms fs c e -> justified h ms fs w e.
Proof.
  intros Hedge Hj.
  destruct Hj as [key a node Hr|name a Hr|n Hr|a Hr];
    [eapply justified_field|eapply justified_macro|eapply justified_cycle
    |eapply justified_missing]; eauto; by eapply rtc_l.
Qed.

Lemma ancestors_child (h : Heap) (ms : gmap string nat) (vs : list nat)
    (w c : nat) :
  ancestors h ms vs w -> edge h ms w c -> ancestors h ms (vs ++ [w]) c.
Proof.
  intros Han Hedge v Hv. apply elem_of_app in Hv as [Hv|Hv].
  - eapply tc_r; [by apply Han|assumption].
  - apply list_elem_of_singleton in Hv as ->. by apply tc_once.
Qed.

Section Justified.

Context (h : Heap) (f : SqlFormatter) (Hstd : standard f).

Lemma Throw_justified_slack (n : nat) :
  forall w meta e, slack h (visited meta) <= n ->
    ancestors h (macros meta) (visited meta) w ->
    callOperator (closed h f) w meta = Throw e ->
    justified h (macros meta) (fields meta) w e.
Proof.
  induction n as [|n IH]; intros w meta e Hn Han;
    rewrite callOperator_closed by assumption; unfold defaultFormatOperator;
    (case_bool_decide as Hin;
     [intros [= <-]; apply (justified_cycle _ _ _ _ w);
      [apply rtc_refl|apply Han, Hin]|]);
    (destruct (h !! w) as [node|] eqn:Hnode;
     [|intros [= <-]; apply (justified_missing _ _ _ _ w);
       [apply rtc_refl|assumption]]);
    pose proof (slack_visit h _ w Hin (ltac:(eauto))) as Hlt; [lia|].
  assert (Hv : forall v e', v ∈ values node ->
            callValue (closed h f) v (visit meta w) = Throw e' ->
            justified h (macros meta) (fields meta) w e').
  { intros v e' Hin' Ev. rewrite callValue_closed in Ev by assumption.
    apply defaultFormatValue_Throw in Ev as (key & -> & -> & Hf).
    apply (justified_field _ _ _ _ key w node); auto. apply rtc_refl. }
  assert (Hc : forall c e', c ∈ children (macros meta) node ->
            callOperator (closed h f) c (visit meta w) = Throw e' ->
            justified h (macros meta) (fields meta) w e').
  { intros c e' Hin' Ec.
    assert (Hedge : edge h (macros meta) w c) by (exists node; auto).
    apply (justified_child _ _ _ w c); [assumption|].
    apply (IH c (visit meta w) e'); [simpl; lia| |assumption].
    by apply ancestors_child. }
  destruct node as [key|tag clauses|clause|sign a b|sign a rest|tag v|name];
    simpl in Hv, Hc.
  - intros E. apply bind_Throw in E as [E|(s & _ & E)]; [|discriminate].
    apply (Hv (VField key)); [by left|assumption].
  - intros E. apply bind_Throw in E as [E|(parts & _ & E)]; [|discriminate].
    apply mapM_Throw in E as (c & Hcin & E).
    apply bind_Throw in E as [E|(s & _ & E)]; [|discriminate]. by apply (Hc c).
  - intros E. apply bind_Throw in E as [E|(s & _ & E)]; [|discriminate].
    apply (Hc clause); [by left|assumption].
  - intros E. apply bind_Throw in E as [E|(sa & _ & E)].
    { apply (Hv a); [by left|assumption]. }
    apply bind_Throw in E as [E|(sb & _ & E)]; [|discriminate].
    apply (Hv b); [right; by left|assumption].
  - assert (Hm : forall e', mapM (fun x => callValue (closed h f) x (visit meta w)) rest
                            = Throw e' ->
                   justified h (macros meta) (fields meta) w e').
    { intros e' E. apply mapM_Throw in E as (x & Hx & E).
      apply (Hv x); [by right|assumption]. }
    destruct rest as [|b [|b' rest]]; intros E;
      (apply bind_Throw in E as [E|(sa & _ & E)];
       [apply (Hv a); [by left|assumption]|]);
      (apply bind_Throw in E as [E|(sb & _ & E)]; [|discriminate]).
    + by apply Hm.
    + apply (Hv b); [right; by left|assumption].
    + by apply Hm.
  - destruct tag; intros E;
      (apply bind_Throw in E as [E|(s & _ & E)]; [|discriminate]);
      (apply (Hv v); [by left|assumption]).
  - change (macros (visit meta w)) with (macros meta).
    destruct (macros meta !! name) as [macro|] eqn:Hm.
    + intros E. apply (Hc macro); [by left|assumption].
    + destruct (inherited name); [discriminate|].
      intros [= <-]. apply (justified_macro _ _ _ _ name w); auto. apply rtc_refl.
Qed.

(** An error thrown at the root of a traversal states a fact about the
    expression. *)
Lemma Throw_justified (w : nat) (meta : SqlFormatterMetadata) (e : Error) :
  visited meta = [] ->
  callOperator (closed h f) w meta = Throw e ->
  justified h (macros meta) (fields meta) w e.
Proof.
  intros Hvs. apply (Throw_justified_slack (slack h (visited meta))); [lia|].
  rewrite Hvs. intros v Hv. by apply not_elem_of_nil in Hv.
Qed.

End Justified.

Lemma generateSql_failed_inv (dialect : string) (f : SqlFormatter)
    (tableName : option string) (macros : gmap string nat) (h : Heap)
    (fields : gmap Z string) (limit : option Z) (w : nat) (e : Error) :
  builtInFormatters !! dialect = Some f ->
  generateSql (builtInOptions tableName macros) h dialect fields
    {| limit := limit; where_ := Some w |} = Some (failed e) ->
  callOperator (closed h f) w (initial (builtInOptions tableName macros) fields)
  = Throw e.
Proof.
  intros E. rewrite (generateSql_builtIn _ _ _ _ _ _ _ E).
  pose proof (builtIn_statement_where dialect f (closed h f)
    (statement (builtInOptions tableName macros)
       {| limit := limit; where_ := Some w |})
    (initial (builtInOptions tableName macros) fields) w E eq_refl) as Hs.
  destruct (callOperator (closed h f) w _) as [s|e'|] eqn:Eo.
  - destruct Hs as [text Hs]. rewrite Hs. discriminate.
  - rewrite Hs. simpl.
    rewrite (callOperator_caught h f (builtIn_standard _ _ E) _ _ _ Eo).
    intros [= ->]. reflexivity.
  - rewrite Hs. discriminate.
Qed.

Lemma generateSql_Return (dialect : string) (f : SqlFormatter)
    (tableName : option string) (macros : gmap string nat) (h : Heap)
    (fields : gmap Z string) (limit : option Z) (w : nat) (s : rendering) :
  builtInFormatters !! dialect = Some f ->
  callOperator (closed h f) w (initial (builtInOptions tableName macros) fields)
  = Return s ->
  exists text,
    generateSql (builtInOptions tableName macros) h dialect fields
      {| limit := limit; where_ := Some w |} = Some (succeeded text).
Proof.
  intros E Hret. rewrite (generateSql_builtIn _ _ _ _ _ _ _ E).
  pose proof (builtIn_statement_where dialect f (closed h f)
    (statement (builtInOptions tableName macros)
       {| limit := limit; where_ := Some w |})
    (initial (builtInOptions tableName macros) fields) w E eq_refl) as Hs.
  rewrite Hret in Hs. destruct Hs as [text Hs]. rewrite Hs. simpl. eauto.
Qed.

(** X1. When a call of [generateSql] with a built-in dialect fails, the
    error states a fact about the where-expression: [UnknownField key]
    only if a node at or below it holds a reference to field [key] and the
    field map has no (or an empty) column name for [key];
    [MacroNotFound name] only if a macro reference to [name] lies at or
    below it and the macro table has no [name]; [CircularDependency] only
    if a node at or below it is its own ancestor; the error for a missing
    array only if a reference at or below it has no array in the store. *)
Theorem error_reports_are_real (dialect : string) (f : SqlFormatter)
    (tableName : option string) (macros : gmap string nat) (h : Heap)
    (fields : gmap Z string) (limit : option Z) (w : nat) (e : Error) :
  builtInFormatters !! dialect = Some f ->
  generateSql {| tableName := tableName; opt_macros := Some macros;
                 opt_formatters := None |} h dialect fields
    {| limit := limit; where_ := Some w |}
  = Some {| success := false; error := Some e; data := None |} ->
  justified h macros fields w e.
Proof.
  intros E Hfail. pose proof (builtIn_standard _ _ E) as Hstd.
  apply (generateSql_failed_inv dialect f) in Hfail; [|assumption].
  exact (Throw_justified h f Hstd w
           (initial (builtInOptions tableName macros) fields) e eq_refl Hfail).
Qed.

(** ** When compiling succeeds *)

Lemma defaultFormatValue_Return_resolves (B : Bundle) (v : SqlValue)
    (meta : SqlFormatterMetadata) (s : string) :
  defaultFormatValue B v meta = Return s -> valueResolves (fields meta) v = true.
Proof.
  destruct v; simpl; try reflexivity.
  destruct (falsyString _); [discriminate|reflexivity].
Qed.

Lemma defaultFormatValue_resolves_Return (B : Bundle) (v : SqlValue)
    (meta : SqlFormatterMetadata) :
  valueResolves (fields meta) v = true ->
  exists s, defaultFormatValue B v meta = Return s.
Proof.
  destruct v; simpl; eauto.
  destruct (falsyString _); [discriminate|eauto].
Qed.

Section Succeeds.

Context (h : Heap) (f : SqlFormatter) (Hstd : standard f).

Lemma Return_node_renders (w : nat) (meta : SqlFormatterMetadata) (s : rendering) :
  callOperator (closed h f) w meta = Return s ->
  exists node, h !! w = Some node
               /\ nodeRenders (fields meta) (macros meta) node = true.
Proof.
  rewrite callOperator_closed by assumption. unfold defaultFormatOperator.
  case_bool_decide as Hin; [discriminate|].
  destruct (h !! w) as [node|]; [|discriminate]. intros E.
  exists node. split; [reflexivity|].
  assert (Hv : forall v t, callValue (closed h f) v (visit meta w) = Return t ->
            valueResolves (fields meta) v = true).
  { intros v t Ev. rewrite callValue_closed in Ev by assumption.
    by apply defaultFormatValue_Return_resolves in Ev. }
  destruct node as [key|tag clauses|clause|sign a b|sign a rest|tag v|name];
    cbn [nodeRenders nodeResolves].
  - apply bind_Return in E as (t & Et & _). by apply (Hv _ t).
  - reflexivity.
  - reflexivity.
  - apply bind_Return in E as (sa & Ea & E).
    apply bind_Return in E as (sb & Eb & _).
    apply andb_true_iff. split; [by apply (Hv _ sa)|by apply (Hv _ sb)].
  - assert (Hm : forall ss,
              mapM (fun x => callValue (closed h f) x (visit meta w)) rest = Return ss ->
              forallb (valueResolves (fields meta)) rest = true).
    { intros ss Em. apply forallb_forall. intros x Hx.
      apply list_elem_of_In in Hx.
      destruct (mapM_Return_elem _ _ _ x Em Hx) as (t & Et). by apply (Hv _ t). }
    apply andb_true_iff.
    destruct rest as [|b [|b' rest]];
      apply bind_Return in E as (sa & Ea & E);
      apply bind_Return in E as (sb & Eb & _);
      (split; [by apply (Hv _ sa)|]).
    + reflexivity.
    + cbn [forallb]. rewrite (Hv _ _ Eb). reflexivity.
    + by apply (Hm sb).
  - destruct tag; apply bind_Return in E as (t & Et & _); by apply (Hv _ t).
  - change (macros (visit meta w)) with (macros meta) in E.
    destruct (macros meta !! name) as [macro|].
    + rewrite bool_decide_eq_true_2 by eauto. reflexivity.
    + destruct (inherited name); [|discriminate]. apply orb_true_r.
Qed.

Lemma Return_below (fs : gmap Z string) (ms : gmap string nat) (w n : nat) :
  rtc (edge h ms) w n ->
  forall vs (s : rendering),
    callOperator (closed h f) w (mkMeta fs ms vs) = Return s ->
    exists vs' (s' : rendering),
      callOperator (closed h f) n (mkMeta fs ms vs') = Return s'.
Proof.
  induction 1 as [w|w c n Hedge _ IH]; intros vs s E; [eauto|].
  apply Return_children in E as [_ Hc]; [|assumption].
  destruct (Hc c Hedge) as (s' & Es). exact (IH _ _ Es).
Qed.

(** In an expression that renders, everything is found. *)
Lemma Return_renderable (fs : gmap Z string) (ms : gmap string nat) (w : nat)
    (vs : list nat) (s : rendering) :
  callOperator (closed h f) w (mkMeta fs ms vs) = Return s -> renderable h ms fs w.
Proof.
  intros E a Hreach.
  destruct (Return_below fs ms w a Hreach vs s E) as (vs' & s' & E').
  exact (Return_node_renders a _ s' E').
Qed.

(** A report of a circular dependency comes from an object that is on the
    path that the traversal started below, or that is its own ancestor. *)
Lemma Circular_origin_slack (path : list nat) (n : nat) :
  forall w meta, slack h (visited meta) <= n ->
    (forall v, v ∈ visited meta -> v ∈ path \/ tc (edge h (macros meta)) v w) ->
    callOperator (closed h f) w meta = Throw CircularDependency ->
    exists a, reaches h (macros meta) w a
              /\ (a ∈ path \/ ownAncestor h (macros meta) a).
Proof.
  induction n as [|n IH]; intros w meta Hn Hinv;
    rewrite callOperator_closed by assumption; unfold defaultFormatOperator;
    (case_bool_decide as Hin;
     [intros _; exists w; split; [apply rtc_refl|exact (Hinv w Hin)]|]);
    (destruct (h !! w) as [node|] eqn:Hnode; [|discriminate]);
    pose proof (slack_visit h _ w Hin (ltac:(eauto))) as Hlt; [lia|].
  assert (Hv : forall v,
            callValue (closed h f) v (visit meta w) = Throw CircularDependency ->
            False).
  { intros v Ev. rewrite callValue_closed in Ev by assumption.
    apply defaultFormatValue_Throw in Ev as (key & _ & Ee & _). discriminate. }
  assert (Hc : forall c, c ∈ children (macros meta) node ->
            callOperator (closed h f) c (visit meta w) = Throw CircularDependency ->
            exists a, reaches h (macros meta) w a
                      /\ (a ∈ path \/ ownAncestor h (macros meta) a)).
  { intros c Hcin Ec.
    assert (Hedge : edge h (macros meta) w c) by (exists node; auto).
    destruct (IH c (visit meta w)) as (a & Ha & Hor); [simpl; lia| |exact Ec|].
    - intros v Hv'. simpl in Hv'. apply elem_of_app in Hv' as [Hv'|Hv'].
      + destruct (Hinv v Hv') as [?|Htc]; [by left|right].
        eapply tc_r; [exact Htc|exact Hedge].
      + apply list_elem_of_singleton in Hv' as ->. right. by apply tc_once.
    - exists a. split; [|exact Hor]. eapply rtc_l; [exact Hedge|exact Ha]. }
  destruct node as [key|tag clauses|clause|sign a b|sign a rest|tag v|name];
    simpl in Hc.
  - intros E. apply bind_Throw in E as [E|(s & _ & E)]; [|discriminate].
    destruct (Hv _ E).
  - intros E. apply bind_Throw in E as [E|(parts & _ & E)]; [|discriminate].
    apply mapM_Throw in E as (c & Hcin & E).
    apply bind_Throw in E as [E|(s & _ & E)]; [|discriminate]. by apply (Hc c).
  - intros E. apply bind_Throw in E as [E|(s & _ & E)]; [|discriminate].
    apply (Hc clause); [by left|assumption].
  - intros E. apply bind_Throw in E as [E|(sa & _ & E)]; [destruct (Hv _ E)|].
    apply bind_Throw in E as [E|(sb & _ & E)]; [|discriminate].
    destruct (Hv _ E).
  - assert (Hm : mapM (fun x => callValue (closed h f) x (visit meta w)) rest
                 = Throw CircularDependency -> False).
    { intros E. apply mapM_Throw in E as (x & _ & E). exact (Hv _ E). }
    destruct rest as [|b [|b' rest]]; intros E;
      (apply bind_Throw in E as [E|(sa & _ & E)]; [destruct (Hv _ E)|]);
      (apply bind_Throw in E as [E|(sb & _ & E)]; [|discriminate]).
    + destruct (Hm E).
    + destruct (Hv _ E).
    + destruct (Hm E).
  - destruct tag; intros E;
      (apply bind_Throw in E as [E|(s & _ & E)]; [|discriminate]);
      destruct (Hv _ E).
  - change (macros (visit meta w)) with (macros meta).
    destruct (macros meta !! name) as [macro|] eqn:Hm.
    + intros E. apply (Hc macro); [by left|assumption].
    + destruct (inherited name); discriminate.
Qed.

(** A node that renders below a path: everything at or below it is found,
    and nothing at or below it is on the path or is its own ancestor. *)
Lemma Return_rendersBelow (fs : gmap Z string) (ms : gmap string nat) (w : nat)
    (vs : list nat) (s : rendering) :
  callOperator (closed h f) w (mkMeta fs ms vs) = Return s ->
  rendersBelow h ms fs vs w.
Proof.
  intros E. split; [exact (Return_renderable fs ms w vs s E)|].
  intros n Hreach. split.
  - destruct (Return_reaches h f Hstd ms w n Hreach (mkMeta fs ms vs) s eq_refl E)
      as (meta' & s' & E' & _ & Hsub).
    apply (Return_children h f Hstd) in E' as [Hnot _].
    intros Hn. apply Hnot, Hsub. exact Hn.
  - intros Hcyc.
    exact (Return_acyclic h f Hstd w n (mkMeta fs ms vs) s E Hreach Hcyc).
Qed.

(** And conversely. *)
Lemma rendersBelow_Return (fs : gmap Z string) (ms : gmap string nat) (w : nat)
    (vs : list nat) :
  rendersBelow h ms fs vs w ->
  exists s : rendering, callOperator (closed h f) w (mkMeta fs ms vs) = Return s.
Proof.
  intros [Hres Hfree].
  pose proof (callOperator_renderable h f Hstd w (mkMeta fs ms vs) Hres) as Hb.
  destruct (callOperator (closed h f) w (mkMeta fs ms vs)) as [s|e|] eqn:Eo.
  - eauto.
  - simpl in Hb. subst e. exfalso.
    destruct (Circular_origin_slack vs (slack h vs) w (mkMeta fs ms vs))
      as (a & Ha & Hor); [simpl; lia|intros v Hv; by left|exact Eo|].
    destruct (Hfree a Ha) as [Hnot Hacyc]. destruct Hor; auto.
  - destruct Hb.
Qed.

End Succeeds.

(** X2. A call of [generateSql] with a built-in dialect and a
    where-expression succeeds exactly when every object at or below the
    where-expression exists, every field number at or below it has a column
    name, every macro name at or below it is found in the macro table (as an
    own property, or as a member inherited from [Object.prototype]), and no
    node at or below it is its own ancestor. *)
Theorem success_iff (dialect : string) (f : SqlFormatter)
    (tableName : option string) (macros : gmap string nat) (h : Heap)
    (fields : gmap Z string) (limit : option Z) (w : nat) :
  builtInFormatters !! dialect = Some f ->
  (exists text,
     generateSql {| tableName := tableName; opt_macros := Some macros;
                    opt_formatters := None |} h dialect fields
       {| limit := limit; where_ := Some w |}
     = Some {| success := true; error := None; data := Some text |})
  <-> (renderable h macros fields w
       /\ forall n, reaches h macros w n -> ~ ownAncestor h macros n).
Proof.
  intros E. pose proof (builtIn_standard _ _ E) as Hstd.
  split.
  - intros [text Hok].
    destruct (generateSql_succeeded dialect f tableName macros h fields limit w
                text E Hok) as [s Hs].
    destruct (Return_rendersBelow h f Hstd fields macros w [] s Hs) as [Hres Hfree].
    split; [exact Hres|]. intros n Hn. by apply Hfree.
  - intros [Hres Hacyc].
    destruct (rendersBelow_Return h f Hstd fields macros w []) as [s Hs].
    { split; [exact Hres|]. intros n Hn. split; [apply not_elem_of_nil|by apply Hacyc]. }
    exact (generateSql_Return dialect f tableName macros h fields limit w s E Hs).
Qed.

(** ** The ancestor path and the text *)

Section Paths.

Context (h : Heap) (f : SqlFormatter) (Hstd : standard f).

Lemma callValue_fields (h' : Heap) (f' : SqlFormatter) (v : SqlValue)
    (meta meta' : SqlFormatterMetadata) :
  standard f' -> formatColumn f = formatColumn f' -> fields meta = fields meta' ->
  callValue (closed h f) v meta = callValue (closed h' f') v meta'.
Proof.
  intros Hstd' Ecol Ef. rewrite !callValue_closed by assumption.
  apply defaultFormatValue_fields; [|assumption].
  unfold closed. rewrite !callColumn_methods. assumption.
Qed.

Lemma shorter_path_agrees_slack (n : nat) :
  forall w meta meta',
    slack h (visited meta) <= n ->
    fields meta = fields meta' -> macros meta = macros meta' ->
    visited meta' ⊆ visited meta ->
    agrees (callOperator (closed h f) w meta) (callOperator (closed h f) w meta').
Proof.
  induction n as [|n IH]; intros w meta meta' Hn Ef Hms Hsub;
    rewrite (callOperator_closed h f Hstd w meta);
    destruct (decide (w ∈ visited meta)) as [Hin|Hin];
    try (unfold defaultFormatOperator; rewrite bool_decide_eq_true_2 by assumption;
         simpl; auto; fail);
    (assert (Hin' : w ∉ visited meta') by (intros Hx; apply Hin, Hsub, Hx));
    rewrite (callOperator_closed h f Hstd w meta');
    (destruct (h !! w) as [node|] eqn:Hnode;
     [|unfold defaultFormatOperator;
       rewrite !bool_decide_eq_false_2 by assumption;
       rewrite Hnode; simpl; auto]);
    pose proof (slack_visit h _ w Hin (ltac:(eauto))) as Hlt; [lia|].
  apply (defaultFormatOperator_agrees _ _ _ _ _ _ _ _ node); try assumption.
  - intros v. apply callValue_fields; auto.
  - intros c Hc. apply IH; simpl; try assumption; [lia|].
    intros x Hx. apply elem_of_app in Hx as [Hx|Hx]; apply elem_of_app; auto.
  - reflexivity.
Qed.

(** Rendering below a shorter ancestor path agrees with rendering below a
    longer one. *)
Lemma shorter_path_agrees (w : nat) (meta meta' : SqlFormatterMetadata) :
  fields meta = fields meta' -> macros meta = macros meta' ->
  visited meta' ⊆ visited meta ->
  agrees (callOperator (closed h f) w meta) (callOperator (closed h f) w meta').
Proof. apply (shorter_path_agrees_slack (slack h (visited meta))). lia. Qed.

Lemma agrees_eq {A} (o o' : outcome A) :
  agrees o o' -> o <> Exhausted -> o <> Throw CircularDependency -> o' = o.
Proof.
  destruct o as [s|e|]; simpl; intros Hag Hex Hcirc.
  - assumption.
  - destruct Hag as [->|Hag]; [by destruct Hcirc|assumption].
  - by destruct Hex.
Qed.

End Paths.

(** X3. The ancestor path decides only whether a circular dependency is
    reported: when rendering a node below an ancestor path gives a text or
    an error other than [CircularDependency], rendering the same node below
    any path holding no other objects, with the same field map and macro
    table, gives the same text or error. *)
Theorem shorter_path_same_outcome (h : Heap) (f : SqlFormatter) (w : nat)
    (meta meta' : SqlFormatterMetadata) :
  standard f ->
  fields meta = fields meta' -> macros meta = macros meta' ->
  visited meta' ⊆ visited meta ->
  callOperator (closed h f) w meta <> Throw CircularDependency ->
  callOperator (closed h f) w meta' = callOperator (closed h f) w meta.
Proof.
  intros Hstd Ef Hms Hsub Hcirc. apply agrees_eq; [|by apply callOperator_total|assumption].
  by apply shorter_path_agrees.
Qed.

(** X4. A macro reference whose name the macro table maps to [b] renders
    as the object [b] renders in its place: unless rendering the reference
    reports a circular dependency, rendering [b] below the same ancestor
    path gives the same text or error.  No parentheses or other text is
    added around the body. *)
Theorem macro_reference_renders_body (h : Heap) (f : SqlFormatter) (r b : nat)
    (name : string) (meta : SqlFormatterMetadata) :
  standard f ->
  h !! r = Some (OpMacro name) ->
  macros meta !! name = Some b ->
  callOperator (closed h f) r meta <> Throw CircularDependency ->
  callOperator (closed h f) b meta = callOperator (closed h f) r meta.
Proof.
  intros Hstd Hr Hname Hcirc.
  assert (Er : callOperator (closed h f) r meta
               = callOperator (closed h f) b (visit meta r)).
  { rewrite (callOperator_closed h f Hstd r). unfold defaultFormatOperator.
    case_bool_decide as Hin.
    - exfalso. apply Hcirc. rewrite callOperator_closed by assumption.
      unfold defaultFormatOperator. by rewrite bool_decide_eq_true_2.
    - rewrite Hr. change (macros (visit meta r)) with (macros meta).
      rewrite Hname. reflexivity. }
  rewrite Er in Hcirc |- *.
  apply agrees_eq; [|by apply callOperator_total|assumption].
  apply shorter_path_agrees; [assumption|reflexivity|reflexivity|].
  intros x Hx. simpl. apply elem_of_app. by left.
Qed.

(** ** The first error *)

Lemma mapM_first_Throw {A B} (f : A -> outcome B) (pre post : list A) (c : A)
    (e : Error) :
  Forall (fun x => exists y, f x = Return y) pre ->
  f c = Throw e ->
  mapM f (pre ++ c :: post) = Throw e.
Proof.
  intros Hpre Hc. induction Hpre as [|x pre [y Hx] _ IH]; simpl.
  - rewrite Hc. reflexivity.
  - rewrite Hx. simpl. rewrite IH. reflexivity.
Qed.

(** X5. An [and] or [or] node reports the error of its first operand that
    fails: when the operands before [c] render and [c] throws [e], the node
    throws [e], whatever the operands after [c] are. *)
Theorem first_failing_operand_wins (h : Heap) (f : SqlFormatter) (w c : nat)
    (tag : BoolTag) (pre post : list nat) (meta : SqlFormatterMetadata)
    (e : Error) :
  standard f ->
  h !! w = Some (OpBool tag (pre ++ c :: post)) ->
  w ∉ visited meta ->
  Forall (fun x => exists s, callOperator (closed h f) x (visit meta w) = Return s)
    pre ->
  callOperator (closed h f) c (visit meta w) = Throw e ->
  callOperator (closed h f) w meta = Throw e.
Proof.
  intros Hstd Hnode Hw Hpre Hc. rewrite callOperator_closed by assumption.
  enter_node Hnode.
  rewrite (mapM_first_Throw _ pre post c e); [reflexivity| |].
  - eapply Forall_impl; [exact Hpre|]. intros x [s Hx]. unfold clausePart.
    rewrite Hx. simpl. eauto.
  - unfold clausePart. rewrite Hc. reflexivity.
Qed.

(** ** Where a traversal stops *)

Lemma mapM_Throw_first {A B} (f : A -> outcome B) (l : list A) (e : Error) :
  mapM f l = Throw e ->
  exists pre c post, l = (pre ++ c :: post)%list
    /\ Forall (fun x => exists y, f x = Return y) pre /\ f c = Throw e.
Proof.
  induction l as [|x l IH]; simpl; [discriminate|]. intros E.
  apply bind_Throw in E as [E|(y & Ey & E)].
  - exists [], x, l. split; [reflexivity|]. split; [constructor|assumption].
  - apply bind_Throw in E as [E|(k & _ & E)]; [|discriminate].
    destruct (IH E) as (pre & c & post & -> & Hpre & Hc).
    exists (x :: pre), c, post. split; [reflexivity|].
    split; [constructor; eauto|assumption].
Qed.

Lemma mapM_cons {A B} (f : A -> outcome B) (x : A) (l : list A) :
  mapM f (x :: l) = y ← f x; k ← mapM f l; mret (y :: k).
Proof. reflexivity. Qed.

(** A node that renders values only throws what rendering its values in
    order throws. *)
Lemma values_Throw (B : Bundle) (h : Heap) (w : nat) (meta : SqlFormatterMetadata)
    (node : SqlOperator) (e : Error) :
  h !! w = Some node -> w ∉ visited meta -> values node <> [] ->
  defaultFormatOperator B h w meta = Throw e
  <-> mapM (fun v => callValue B v (visit meta w)) (values node) = Throw e.
Proof.
  intros Hnode Hw Hvalues. enter_node Hnode.
  destruct node as [key|tag clauses|clause|sign a b|sign a rest|tag v|name];
    try (by destruct Hvalues); cbn [values].
  - cbn [mapM]. destruct (callValue B (VField key) (visit meta w)); simpl;
      unfold mret, outcome_ret; split; congruence.
  - cbn [mapM]. destruct (callValue B a (visit meta w)); simpl;
      [|unfold mret, outcome_ret; split; congruence..].
    destruct (callValue B b (visit meta w)); simpl;
      unfold mret, outcome_ret; split; congruence.
  - destruct rest as [|b [|b' rest]].
    + cbn [mapM]. destruct (callValue B a (visit meta w)); simpl;
        unfold mret, outcome_ret; split; congruence.
    + cbn [mapM].
      destruct (callValue B a (visit meta w)); simpl;
        [|unfold mret, outcome_ret; split; congruence..].
      destruct (callValue B b (visit meta w)); simpl;
        unfold mret, outcome_ret; split; congruence.
    + rewrite (mapM_cons _ a).
      destruct (callValue B a (visit meta w)); cbn [mbind outcome_bind];
        [|unfold mret, outcome_ret; split; congruence..].
      destruct (mapM (fun v => callValue B v (visit meta w)) (b :: b' :: rest));
        cbn [mbind outcome_bind]; unfold mret, outcome_ret; split; congruence.
  - cbn [mapM]. destruct tag; destruct (callValue B v (visit meta w)); simpl;
      unfold mret, outcome_ret; split; congruence.
Qed.

Section Stops.

Context (h : Heap) (f : SqlFormatter) (Hstd : standard f).
Context (fs : gmap Z string) (ms : gmap string nat).

(** The first value of a list that does not resolve decides what rendering
    the list throws. *)
Lemma mapM_callValue_Throw (vs : list SqlValue) (path : list nat) (e : Error) :
  mapM (fun v => callValue (closed h f) v (mkMeta fs ms path)) vs = Throw e
  <-> exists pre key post, vs = (pre ++ VField key :: post)%list
        /\ forallb (valueResolves fs) pre = true
        /\ falsyString (fs !! key) = true /\ e = UnknownField key.
Proof.
  split.
  - intros E. apply mapM_Throw_first in E as (pre & c & post & -> & Hpre & Hc).
    rewrite callValue_closed in Hc by assumption.
    apply defaultFormatValue_Throw in Hc as (key & -> & -> & Hf).
    exists pre, key, post. split; [reflexivity|]. split; [|auto].
    apply forallb_forall. intros x Hx. apply list_elem_of_In in Hx.
    rewrite Forall_forall in Hpre. destruct (Hpre x Hx) as [y Hy].
    rewrite callValue_closed in Hy by assumption.
    by apply defaultFormatValue_Return_resolves in Hy.
  - intros (pre & key & post & -> & Hpre & Hf & ->).
    apply mapM_first_Throw.
    + apply Forall_forall. intros x Hx. rewrite callValue_closed by assumption.
      apply defaultFormatValue_resolves_Return. simpl.
      rewrite forallb_forall in Hpre. apply Hpre. by apply list_elem_of_In.
    + rewrite callValue_closed by assumption.
      by apply defaultFormatValue_unknown.
Qed.

(** What stops the traversal is what rendering throws. *)
Lemma stops_Throw (path : list nat) (w : nat) (e : Error) :
  stops h ms fs path w e ->
  callOperator (closed h f) w (mkMeta fs ms path) = Throw e.
Proof.
  induction 1 as [path w Hin|path w Hw Hnone|path w node pre key post Hw Hnode Hvs Hpre Hf
                  |path w name Hw Hnode Hname Hinh|path w clause e Hw Hnode _ IH
                  |path w name macro e Hw Hnode Hname _ IH
                  |path w tag pre c post e Hw Hnode Hpre _ IH];
    rewrite callOperator_closed by assumption.
  - unfold defaultFormatOperator. by rewrite bool_decide_eq_true_2.
  - unfold defaultFormatOperator. rewrite bool_decide_eq_false_2 by assumption.
    by rewrite Hnone.
  - apply (values_Throw _ _ _ _ node); [assumption|assumption| |].
    + rewrite Hvs. by destruct pre.
    + apply mapM_callValue_Throw. exists pre, key, post. auto.
  - enter_node Hnode. cbn [macros visit]. rewrite Hname, Hinh. reflexivity.
  - enter_node Hnode.
    change (visit (mkMeta fs ms path) w) with (mkMeta fs ms (path ++ [w])).
    rewrite IH. reflexivity.
  - enter_node Hnode. cbn [macros visit]. rewrite Hname.
    change (visit (mkMeta fs ms path) w) with (mkMeta fs ms (path ++ [w])) in *.
    exact IH.
  - enter_node Hnode.
    change (visit (mkMeta fs ms path) w) with (mkMeta fs ms (path ++ [w])).
    rewrite (mapM_first_Throw _ pre post c e); [reflexivity| |].
    + eapply Forall_impl; [exact Hpre|]. intros x Hx.
      destruct (rendersBelow_Return h f Hstd fs ms x _ Hx) as [s Hs].
      unfold clausePart. rewrite Hs. simpl. eauto.
    + unfold clausePart. rewrite IH. reflexivity.
Qed.

Lemma Throw_stops_slack (n : nat) :
  forall w path e, slack h path <= n ->
    callOperator (closed h f) w (mkMeta fs ms path) = Throw e ->
    stops h ms fs path w e.
Proof.
  induction n as [|n IH]; intros w path e Hn E;
    (destruct (decide (w ∈ path)) as [Hin|Hin];
     [rewrite callOperator_closed in E by assumption;
      unfold defaultFormatOperator in E;
      rewrite bool_decide_eq_true_2 in E by assumption;
      injection E as <-; by apply stops_cycle|]);
    (destruct (h !! w) as [node|] eqn:Hnode;
     [|rewrite callOperator_closed in E by assumption;
       unfold defaultFormatOperator in E;
       rewrite bool_decide_eq_false_2 in E by assumption;
       rewrite Hnode in E; injection E as <-; by apply stops_missing]);
    pose proof (slack_visit h path w Hin (ltac:(eauto))) as Hlt; [lia|].
  assert (Hc : forall c e', callOperator (closed h f) c (mkMeta fs ms (path ++ [w]))
                            = Throw e' ->
                 stops h ms fs (path ++ [w]) c e')
    by (intros c e' Ec; apply IH; [lia|assumption]).
  destruct (decide (values node = [])) as [Hvs|Hvs].
  - rewrite callOperator_closed in E by assumption.
    unfold defaultFormatOperator in E.
    rewrite bool_decide_eq_false_2 in E by assumption. rewrite Hnode in E.
    change (visit (mkMeta fs ms path) w) with (mkMeta fs ms (path ++ [w])) in E.
    destruct node as [key|tag clauses|clause|sign a b|sign a rest|tag v|name];
      try discriminate.
    + apply bind_Throw in E as [E|(parts & _ & E)]; [|discriminate].
      apply mapM_Throw_first in E as (pre & c & post & -> & Hpre & E).
      apply bind_Throw in E as [E|(s & _ & E)]; [|discriminate].
      apply (stops_operand _ _ _ _ _ tag pre c post); auto.
      eapply Forall_impl; [exact Hpre|]. intros x [y Hy].
      apply bind_Return in Hy as (s & Hs & _).
      exact (Return_rendersBelow h f Hstd fs ms x _ s Hs).
    + apply bind_Throw in E as [E|(s & _ & E)]; [|discriminate].
      apply (stops_not _ _ _ _ _ clause); auto.
    + cbn [macros] in E. destruct (ms !! name) as [macro|] eqn:Hname.
      * apply (stops_body _ _ _ _ _ name macro); auto.
      * destruct (inherited name) eqn:Hinh; [discriminate|].
        injection E as <-. by apply stops_name.
  - rewrite callOperator_closed in E by assumption.
    apply (values_Throw _ _ _ _ node) in E; [|assumption..].
    change (visit (mkMeta fs ms path) w) with (mkMeta fs ms (path ++ [w])) in E.
    apply mapM_callValue_Throw in E as (pre & key & post & Hv & Hpre & Hf & ->).
    by apply (stops_field _ _ _ _ _ node pre key post).
Qed.

(** Rendering throws [e] exactly when [e] stops the traversal. *)
Lemma Throw_iff_stops (path : list nat) (w : nat) (e : Error) :
  callOperator (closed h f) w (mkMeta fs ms path) = Throw e
  <-> stops h ms fs path w e.
Proof.
  split; [|apply stops_Throw]. apply (Throw_stops_slack (slack h path)). lia.
Qed.

End Stops.

(** C2, as amended. When some node at or below the where-expression is its
    own ancestor, through operands or through macro names resolved in the
    macro table, a call of [generateSql] with a built-in dialect fails and
    carries no text.  The error is [CircularDependency] exactly when a
    cycle is what stops the depth-first, left-to-right traversal: going from
    the where-expression into the operand of a [not], the body of a macro,
    or an operand of an [and]/[or] whose earlier operands all render,
    arrives at an object that is already on the path that led to it.  It is
    so, in particular, when every field number and macro name at or below
    the where-expression resolves. *)
Theorem own_ancestor_fails (dialect : string) (f : SqlFormatter)
    (tableName : option string) (macros : gmap string nat) (h : Heap)
    (fields : gmap Z string) (limit : option Z) (w n : nat) :
  builtInFormatters !! dialect = Some f ->
  reaches h macros w n ->
  ownAncestor h macros n ->
  exists e,
    generateSql {| tableName := tableName; opt_macros := Some macros;
                   opt_formatters := None |} h dialect fields
      {| limit := limit; where_ := Some w |}
    = Some {| success := false; error := Some e; data := None |}
    /\ (resolves h macros fields w -> e = CircularDependency)
    /\ (e = CircularDependency <-> stops h macros fields [] w CircularDependency).
Proof.
  intros E Hreach Hcyc. pose proof (builtIn_standard _ _ E) as Hstd.
  pose (meta := initial (builtInOptions tableName macros) fields).
  pose proof (callOperator_total h f Hstd w meta) as Htotal.
  destruct (callOperator (closed h f) w meta) as [s|e|] eqn:Eo; [| |congruence].
  - exfalso. exact (Return_acyclic h f Hstd w n meta s Eo Hreach Hcyc).
  - exists e. split; [|split].
    + by apply (generateSql_Throw dialect f).
    + intros Hres.
      pose proof (callOperator_resolves h f Hstd w meta Hres) as Hb.
      rewrite Eo in Hb. exact Hb.
    + split.
      * intros ->. by apply (Throw_iff_stops h f Hstd fields macros [] w).
      * intros Hs. apply (stops_Throw h f Hstd fields macros) in Hs.
        change (mkMeta fields macros []) with meta in Hs. congruence.
Qed.

(** X15. A call of [generateSql] with a built-in dialect and a
    where-expression fails with the error [e] exactly when [e] is what
    stops the depth-first, left-to-right traversal of the where-expression:
    the first thing met that is an object already on the path that led to
    it, a reference with no array in the store, a reference to a field
    without a column name, or a reference to a macro whose name is not
    found, wherever in the expression it is met. *)
Theorem failure_is_first_stop (dialect : string) (f : SqlFormatter)
    (tableName : option string) (macros : gmap string nat) (h : Heap)
    (fields : gmap Z string) (limit : option Z) (w : nat) (e : Error) :
  builtInFormatters !! dialect = Some f ->
  generateSql {| tableName := tableName; opt_macros := Some macros;
                 opt_formatters := None |} h dialect fields
    {| limit := limit; where_ := Some w |}
  = Some {| success := false; error := Some e; data := None |}
  <-> stops h macros fields [] w e.
Proof.
  intros E. pose proof (builtIn_standard _ _ E) as Hstd.
  rewrite <- (Throw_iff_stops h f Hstd fields macros [] w e). split.
  - by apply (generateSql_failed_inv dialect f).
  - by apply (generateSql_Throw dialect f).
Qed.

(** ** Emptiness tests as equalities with null *)

(** X6. [is-empty] of a value renders exactly as [=] of that value and
    null, and [not-empty] exactly as [!=] of that value and null: the same
    text, or the same error. *)
Theorem empty_test_is_null_equality (h1 h2 : Heap) (f : SqlFormatter)
    (w1 w2 : nat) (tag : EmptyTag) (v : SqlValue)
    (meta1 meta2 : SqlFormatterMetadata) :
  standard f ->
  h1 !! w1 = Some (OpEmpty tag v) ->
  h2 !! w2 = Some (OpEq (emptyAsEq tag) v [VNull]) ->
  w1 ∉ visited meta1 -> w2 ∉ visited meta2 ->
  fields meta1 = fields meta2 ->
  callOperator (closed h1 f) w1 meta1 = callOperator (closed h2 f) w2 meta2.
Proof.
  intros Hstd H1 H2 Hw1 Hw2 Ef. rewrite !callOperator_closed by assumption.
  unfold defaultFormatOperator. rewrite !bool_decide_eq_false_2 by assumption.
  rewrite H1, H2.
  rewrite (callValue_fields h1 f Hstd h2 f v (visit meta1 w1) (visit meta2 w2))
    by auto.
  rewrite (callValue_closed h2 f Hstd VNull).
  destruct tag; simpl;
    destruct (callValue (closed h2 f) v (visit meta2 w2)); reflexivity.
Qed.

(** ** Which values fail *)

(** X7. The value renderer of a bundle that keeps the default renderers
    throws only for a field reference whose number has no column name, or
    an empty one, in the field map, and then throws [UnknownField] of that
    number; number, text and null literals always render. *)
Theorem value_fails_iff (h : Heap) (f : SqlFormatter) (v : SqlValue)
    (meta : SqlFormatterMetadata) (e : Error) :
  standard f ->
  callValue (closed h f) v meta = Throw e
  <-> exists key, v = VField key /\ e = UnknownField key
                  /\ (fields meta !! key = None \/ fields meta !! key = Some "").
Proof.
  intros Hstd. rewrite callValue_closed by assumption. split.
  - intros E. apply defaultFormatValue_Throw in E as (key & -> & -> & Hf).
    exists key. split; [reflexivity|]. split; [reflexivity|].
    destruct (fields meta !! key) as [s|]; [|by left]. right.
    simpl in Hf. apply String.eqb_eq in Hf. by subst.
  - intros (key & -> & -> & [Hk|Hk]); simpl; rewrite Hk; reflexivity.
Qed.

(** ** Which dialects are known *)

Lemma builtIn_statement_no_where (dialect : string) (f : SqlFormatter) (B : Bundle)
    (sql : SqlStatement) (meta : SqlFormatterMetadata) :
  builtInFormatters !! dialect = Some f ->
  sql_where sql = None ->
  exists text, formatStatement f B sql meta = Return text.
Proof.
  intros E Hw.
  destruct (builtIn_cases _ _ E) as [->|[->| ->]];
    cbn [formatStatement sqlserver postgres mysql defaultFormatter];
    [unfold sqlserverFormatStatement|unfold defaultFormatStatement..];
    unfold pushWhere; rewrite Hw; cbn [mbind outcome_bind mret outcome_ret];
    eauto.
Qed.

Lemma builtIn_None (dialect : string) :
  builtInFormatters !! dialect = None
  <-> dialect <> "sqlserver" /\ dialect <> "postgres" /\ dialect <> "mysql".
Proof.
  split.
  - intros E. repeat split; intros ->; vm_compute in E; discriminate.
  - intros (N1 & N2 & N3). unfold builtInFormatters.
    rewrite !lookup_insert_ne by congruence.
    by rewrite lookup_singleton_ne by congruence.
Qed.

Lemma inherited_not_builtIn (dialect : string) :
  inherited dialect = true -> builtInFormatters !! dialect = None.
Proof.
  unfold inherited. intros Hin. apply bool_decide_eq_true in Hin.
  apply builtIn_None. unfold objectPrototype in Hin.
  repeat split; intros ->;
    repeat (apply elem_of_cons in Hin as [Hin|Hin]; [discriminate|]);
    by apply not_elem_of_nil in Hin.
Qed.

(** X8. On a transpiler with the built-in formatters, a call of
    [generateSql] fails with [UnknownDialect] exactly when the dialect is
    none of [sqlserver], [postgres] and [mysql] and is not the name of a
    member of [Object.prototype]; the error then names the dialect asked
    for, whatever the query is.  For the name of a member of
    [Object.prototype] the call fails with the type error of calling a
    [formatStatement] that the member does not have. *)
Theorem unknown_dialect_iff (tableName : option string)
    (macros : gmap string nat) (h : Heap) (dialect : string)
    (fields : gmap Z string) (query : SqlQuery) (d : string) :
  (generateSql {| tableName := tableName; opt_macros := Some macros;
                  opt_formatters := None |} h dialect fields query
   = Some {| success := false; error := Some (UnknownDialect d); data := None |}
   <-> (d = dialect /\ dialect <> "sqlserver" /\ dialect <> "postgres"
        /\ dialect <> "mysql" /\ dialect ∉ objectPrototype))
  /\ (dialect ∈ objectPrototype ->
      generateSql {| tableName := tableName; opt_macros := Some macros;
                     opt_formatters := None |} h dialect fields query
      = Some {| success := false; error := Some NotAFunction; data := None |}).
Proof.
  change {| tableName := tableName; opt_macros := Some macros;
            opt_formatters := None |} with (builtInOptions tableName macros).
  assert (Hun : generateSql (builtInOptions tableName macros) h dialect fields query
                = match builtInFormatters !! dialect with
                  | None =>
                      Some (failed (if inherited dialect then NotAFunction
                                    else UnknownDialect dialect))
                  | Some f =>
                      resultOf (rendered (builtInOptions tableName macros) h fields
                                  query f)
                  end) by apply generateSql_unfold.
  split; [split|].
  - destruct (builtInFormatters !! dialect) as [f|] eqn:E.
    + intros Hfail. exfalso. pose proof (builtIn_standard _ _ E) as Hstd.
      destruct query as [limit [w|]].
      * apply (generateSql_failed_inv dialect f) in Hfail; [|assumption].
        pose proof (Throw_justified h f Hstd w
          (initial (builtInOptions tableName macros) fields) _ eq_refl Hfail) as Hj.
        inversion Hj.
      * rewrite (generateSql_builtIn _ _ _ _ _ _ _ E) in Hfail.
        destruct (builtIn_statement_no_where dialect f (closed h f)
          (statement (builtInOptions tableName macros)
             {| limit := limit; where_ := None |})
          (initial (builtInOptions tableName macros) fields) E eq_refl)
          as [text Ht].
        rewrite Ht in Hfail. discriminate.
    + rewrite Hun. apply builtIn_None in E as (N1 & N2 & N3).
      unfold inherited. case_bool_decide as Hin; [discriminate|].
      intros [= ->]. auto 6.
  - intros (-> & N1 & N2 & N3 & Hin). rewrite Hun.
    rewrite (proj2 (builtIn_None dialect)) by auto.
    unfold inherited. by rewrite bool_decide_eq_false_2.
  - intros Hin. rewrite Hun.
    assert (Hi : inherited dialect = true) by by apply bool_decide_eq_true.
    rewrite (inherited_not_builtIn _ Hi), Hi. reflexivity.
Qed.

(** ** The dialects compared *)

Section Dialects.

Context (h : Heap) (f f' : SqlFormatter).
Context (Hstd : standard f) (Hstd' : standard f').

Lemma same_column_same_operator_slack (n : nat) :
  formatColumn f = formatColumn f' ->
  forall w meta, slack h (visited meta) <= n ->
    callOperator (closed h f) w meta = callOperator (closed h f') w meta.
Proof.
  intros Ecol. induction n as [|n IH]; intros w meta Hn;
    rewrite !callOperator_closed by assumption;
    (apply defaultFormatOperator_ext;
     [intros v m; apply (callValue_fields h f Hstd h f'); auto|]);
    intros Hw Hin c; pose proof (slack_visit h _ w Hw Hin) as Hlt; [lia|].
  apply IH. simpl. lia.
Qed.

(** Two bundles that keep the default renderers and quote columns alike
    render every expression alike. *)
Lemma same_column_same_operator (w : nat) (meta : SqlFormatterMetadata) :
  formatColumn f = formatColumn f' ->
  callOperator (closed h f) w meta = callOperator (closed h f') w meta.
Proof.
  intros Ecol. by apply (same_column_same_operator_slack (slack h (visited meta))).
Qed.

End Dialects.

(** X9. When the limit is absent or 0, [sqlserver] and [postgres] give the
    same result for every query: the two dialects differ only in where the
    limit is written. *)
Theorem sqlserver_as_postgres (tableName : option string)
    (macros : option (gmap string nat)) (h : Heap) (fields : gmap Z string)
    (query : SqlQuery) :
  limit query = None \/ limit query = Some 0%Z ->
  generateSql {| tableName := tableName; opt_macros := macros;
                 opt_formatters := None |} h "sqlserver" fields query
  = generateSql {| tableName := tableName; opt_macros := macros;
                   opt_formatters := None |} h "postgres" fields query.
Proof.
  intros Hlimit. rewrite !generateSql_unfold. unfold registry.
  cbn [opt_formatters default].
  change (builtInFormatters !! "sqlserver") with (Some sqlserver).
  change (builtInFormatters !! "postgres") with (Some postgres).
  f_equal. unfold rendered, renderedAt.
  cbn [formatStatement sqlserver postgres defaultFormatter].
  unfold sqlserverFormatStatement, defaultFormatStatement, pushLimit, pushWhere.
  assert (Ht : truthyNumber (sql_limit (statement
                 {| tableName := tableName; opt_macros := macros;
                    opt_formatters := None |} query)) = false).
  { unfold statement. cbn [sql_limit]. destruct Hlimit as [->| ->]; reflexivity. }
  rewrite Ht.
  destruct (sql_where _) as [w|]; [|reflexivity].
  rewrite (same_column_same_operator h sqlserver postgres
             standard_sqlserver standard_postgres w _ eq_refl).
  reflexivity.
Qed.

(** ** Outcomes of the same kind in every dialect *)

Lemma bind_sameKind {A B} (k k' : A -> outcome B) (m m' : outcome A) :
  sameKind m m' -> (forall a a', sameKind (k a) (k' a')) ->
  sameKind (m ≫= k) (m' ≫= k').
Proof. destruct m, m'; simpl; intros Hm Hk; try contradiction; auto. Qed.

Lemma mapM_sameKind {A B} (f g : A -> outcome B) (l : list A) :
  (forall x, x ∈ l -> sameKind (f x) (g x)) -> sameKind (mapM f l) (mapM g l).
Proof.
  induction l as [|x l IH]; intros E; simpl; [exact I|].
  apply bind_sameKind; [apply E; left|].
  intros y y'. apply bind_sameKind; [|intros; exact I].
  apply IH. intros z Hz. apply E. by right.
Qed.

Lemma defaultFormatValue_sameKind (B B' : Bundle) (v : SqlValue)
    (meta : SqlFormatterMetadata) :
  sameKind (defaultFormatValue B v meta) (defaultFormatValue B' v meta).
Proof.
  destruct v; simpl; try exact I.
  destruct (falsyString _); simpl; auto.
Qed.

Lemma defaultFormatOperator_sameKind (B B' : Bundle) (h : Heap) (w : nat)
    (meta : SqlFormatterMetadata) :
  (forall v m, sameKind (callValue B v m) (callValue B' v m)) ->
  (w ∉ visited meta -> is_Some (h !! w) ->
   forall c, sameKind (callOperator B c (visit meta w))
                      (callOperator B' c (visit meta w))) ->
  sameKind (defaultFormatOperator B h w meta) (defaultFormatOperator B' h w meta).
Proof.
  intros Hv Hc. unfold defaultFormatOperator.
  case_bool_decide as Hin; [reflexivity|].
  destruct (h !! w) as [node|] eqn:Ew; [|reflexivity].
  specialize (Hc Hin (ltac:(eauto))).
  destruct node as [key|tag clauses|clause|sign a b|sign a rest|tag v|name].
  - apply bind_sameKind; [apply Hv|intros; exact I].
  - apply bind_sameKind; [|intros; exact I].
    apply mapM_sameKind. intros c _.
    apply bind_sameKind; [apply Hc|intros; exact I].
  - apply bind_sameKind; [apply Hc|intros; exact I].
  - apply bind_sameKind; [apply Hv|]. intros sa sa'.
    apply bind_sameKind; [apply Hv|intros; exact I].
  - assert (Hm : sameKind (mapM (fun x => callValue B x (visit meta w)) rest)
                          (mapM (fun x => callValue B' x (visit meta w)) rest))
      by (apply mapM_sameKind; intros; apply Hv).
    destruct rest as [|b [|b' rest]];
      (apply bind_sameKind; [apply Hv|]; intros sa sa';
       apply bind_sameKind; [first [apply Hm | apply Hv]|intros; exact I]).
  - destruct tag; (apply bind_sameKind; [apply Hv|intros; exact I]).
  - destruct (macros (visit meta w) !! name); [apply Hc|].
    destruct (inherited name); reflexivity.
Qed.

Section SameKind.

Context (h : Heap) (f f' : SqlFormatter).
Context (Hstd : standard f) (Hstd' : standard f').

Lemma callValue_sameKind (v : SqlValue) (meta : SqlFormatterMetadata) :
  sameKind (callValue (closed h f) v meta) (callValue (closed h f') v meta).
Proof.
  rewrite !callValue_closed by assumption. apply defaultFormatValue_sameKind.
Qed.

Lemma callOperator_sameKind_slack (n : nat) :
  forall w meta, slack h (visited meta) <= n ->
    sameKind (callOperator (closed h f) w meta) (callOperator (closed h f') w meta).
Proof.
  induction n as [|n IH]; intros w meta Hn;
    rewrite !callOperator_closed by assumption;
    (apply defaultFormatOperator_sameKind; [intros; apply callValue_sameKind|]);
    intros Hw Hin c; pose proof (slack_visit h _ w Hw Hin) as Hlt; [lia|].
  apply IH. simpl. lia.
Qed.

Lemma callOperator_sameKind (w : nat) (meta : SqlFormatterMetadata) :
  sameKind (callOperator (closed h f) w meta) (callOperator (closed h f') w meta).
Proof. by apply (callOperator_sameKind_slack (slack h (visited meta))). Qed.

End SameKind.

Lemma builtIn_statement_sameKind (d d' : string) (f f' : SqlFormatter)
    (B B' : Bundle) (sql : SqlStatement) (meta : SqlFormatterMetadata) :
  builtInFormatters !! d = Some f ->
  builtInFormatters !! d' = Some f' ->
  (forall w, sameKind (callOperator B w meta) (callOperator B' w meta)) ->
  sameKind (formatStatement f B sql meta) (formatStatement f' B' sql meta).
Proof.
  intros E E' HB.
  assert (Hp : forall parts parts',
            sameKind (pushWhere B parts sql meta) (pushWhere B' parts' sql meta)).
  { intros parts parts'. unfold pushWhere. destruct (sql_where sql) as [w|].
    - apply bind_sameKind; [apply HB|intros; exact I].
    - exact I. }
  destruct (builtIn_cases _ _ E) as [->|[->| ->]];
    destruct (builtIn_cases _ _ E') as [->|[->| ->]];
    cbn [formatStatement sqlserver postgres mysql defaultFormatter];
    unfold sqlserverFormatStatement, defaultFormatStatement;
    (apply bind_sameKind; [apply Hp|intros; exact I]).
Qed.

(** X10. Whether a query compiles, and with which error it fails, does not
    depend on the built-in dialect: for any two of [sqlserver], [postgres]
    and [mysql], the two results have the same success flag and the same
    error. *)
Theorem dialects_fail_alike (d d' : string) (f f' : SqlFormatter)
    (tableName : option string) (macros : gmap string nat) (h : Heap)
    (fields : gmap Z string) (query : SqlQuery) (r r' : Result) :
  builtInFormatters !! d = Some f ->
  builtInFormatters !! d' = Some f' ->
  generateSql {| tableName := tableName; opt_macros := Some macros;
                 opt_formatters := None |} h d fields query = Some r ->
  generateSql {| tableName := tableName; opt_macros := Some macros;
                 opt_formatters := None |} h d' fields query = Some r' ->
  success r = success r' /\ error r = error r'.
Proof.
  intros E E'.
  change {| tableName := tableName; opt_macros := Some macros;
            opt_formatters := None |} with (builtInOptions tableName macros).
  rewrite (generateSql_builtIn _ _ _ _ _ _ _ E).
  rewrite (generateSql_builtIn _ _ _ _ _ _ _ E').
  pose proof (builtIn_statement_sameKind d d' f f' (closed h f) (closed h f')
    (statement (builtInOptions tableName macros) query)
    (initial (builtInOptions tableName macros) fields) E E') as Hk.
  assert (HB : forall w,
    sameKind (callOperator (closed h f) w (initial (builtInOptions tableName macros) fields))
             (callOperator (closed h f') w (initial (builtInOptions tableName macros) fields))).
  { intros w. apply callOperator_sameKind; by eapply builtIn_standard. }
  specialize (Hk HB).
  destruct (formatStatement f _ _ _) as [s|e|];
    destruct (formatStatement f' _ _ _) as [s'|e'|];
    simpl in Hk; try contradiction; simpl;
    intros [= <-] [= <-]; simpl; auto.
  by subst.
Qed.

(** ** The layout of a statement *)

Lemma append_assoc (a b c : string) : (a +:+ b) +:+ c = a +:+ (b +:+ c).
Proof.
  induction a as [|x a IH]; [reflexivity|].
  change (String x ((a +:+ b) +:+ c) = String x (a +:+ (b +:+ c))).
  by rewrite IH.
Qed.

Lemma append_nil_r (a : string) : a +:+ "" = a.
Proof.
  induction a as [|x a IH]; [reflexivity|].
  change (String x (a +:+ "") = String x a). by rewrite IH.
Qed.

Lemma concat_snoc (sep p x : string) (ps : list string) :
  String.concat sep (p :: ps ++ [x]) = String.concat sep (p :: ps) +:+ sep +:+ x.
Proof.
  revert p. induction ps as [|p' ps IH]; intros p.
  - reflexivity.
  - change (String.concat sep (p :: (p' :: ps) ++ [x]))
      with (p +:+ sep +:+ String.concat sep (p' :: ps ++ [x])).
    rewrite IH.
    change (String.concat sep (p :: p' :: ps))
      with (p +:+ sep +:+ String.concat sep (p' :: ps)).
    by rewrite !append_assoc.
Qed.

Lemma pushFrom_concat (p : string) (ps : list string) (sql : SqlStatement) :
  exists ps', pushFrom (p :: ps) sql = p :: ps'
    /\ String.concat " " (p :: ps')
       = String.concat " " (p :: ps) +:+ clauseText "FROM" (writtenFrom (sql_from sql)).
Proof.
  unfold pushFrom. destruct (sql_from sql) as [[|c name]|]; simpl.
  - exists ps. split; [reflexivity|]. by rewrite append_nil_r.
  - eexists. split; [reflexivity|]. apply concat_snoc.
  - exists ps. split; [reflexivity|]. by rewrite append_nil_r.
Qed.

Lemma pushLimit_concat (keyword p : string) (ps : list string) (sql : SqlStatement) :
  exists ps', pushLimit keyword (p :: ps) sql = p :: ps'
    /\ String.concat " " (p :: ps')
       = String.concat " " (p :: ps)
         +:+ clauseText keyword (writtenLimit (sql_limit sql)).
Proof.
  unfold pushLimit. destruct (sql_limit sql) as [[|n|n]|]; simpl.
  - exists ps. split; [reflexivity|]. by rewrite append_nil_r.
  - eexists. split; [reflexivity|]. apply concat_snoc.
  - eexists. split; [reflexivity|]. apply concat_snoc.
  - exists ps. split; [reflexivity|]. by rewrite append_nil_r.
Qed.

Lemma pushWhere_concat (B : Bundle) (p : string) (ps : list string)
    (sql : SqlStatement) (meta : SqlFormatterMetadata) (text : option string) :
  match sql_where sql with
  | None => text = None
  | Some w => exists s, callOperator B w meta = Return s /\ text = Some (templated s)
  end ->
  exists ps', pushWhere B (p :: ps) sql meta = Return (p :: ps')
    /\ String.concat " " (p :: ps')
       = String.concat " " (p :: ps) +:+ clauseText "WHERE" text.
Proof.
  unfold pushWhere. destruct (sql_where sql) as [w|].
  - intros (s & Hs & ->). rewrite Hs. simpl.
    eexists. split; [reflexivity|]. apply concat_snoc.
  - intros ->. exists ps. split; [reflexivity|]. simpl.
    by rewrite append_nil_r.
Qed.

Lemma builtIn_default_statement (dialect : string) (f : SqlFormatter) :
  builtInFormatters !! dialect = Some f -> dialect <> "sqlserver" ->
  formatStatement f = defaultFormatStatement.
Proof.
  unfold builtInFormatters. intros E N1.
  rewrite lookup_insert_ne in E by congruence.
  destruct (decide (dialect = "postgres")) as [->|N2].
  { rewrite lookup_insert_eq in E. by injection E as <-. }
  rewrite lookup_insert_ne in E by congruence.
  destruct (decide (dialect = "mysql")) as [->|N3].
  { rewrite lookup_singleton_eq in E. by injection E as <-. }
  rewrite lookup_singleton_ne in E by congruence. discriminate.
Qed.

(** X11. A call of [generateSql] with the dialect [postgres] or [mysql]
    whose where-expression renders (or is absent), and in which the limit,
    if any, and the numbers of the expression are safe integers, succeeds
    with the text [SELECT *], then [ FROM ] and
    the table name when the table name is present and not empty, then
    [ WHERE ] and the text of the where-expression when there is one
    ([undefined] when it renders to no text), then [ LIMIT ] and the limit
    in decimal when the limit is present and not zero, then [;]. *)
Theorem default_statement_layout (dialect : string) (f : SqlFormatter)
    (tableName : option string) (macros : gmap string nat) (h : Heap)
    (fields : gmap Z string) (query : SqlQuery) (text : option string) :
  builtInFormatters !! dialect = Some f ->
  dialect <> "sqlserver" ->
  safeLimit query = true -> safeStore h = true ->
  whereRenders (closed h f) query (mkMeta fields macros []) text ->
  generateSql {| tableName := tableName; opt_macros := Some macros;
                 opt_formatters := None |} h dialect fields query
  = Some {| success := true; error := None;
            data := Some ("SELECT *"
                          +:+ clauseText "FROM" (writtenFrom tableName)
                          +:+ clauseText "WHERE" text
                          +:+ clauseText "LIMIT" (writtenLimit (limit query))
                          +:+ ";") |}.
Proof.
  intros E Hd _ _ Hwhere.
  change {| tableName := tableName; opt_macros := Some macros;
            opt_formatters := None |} with (builtInOptions tableName macros).
  rewrite (generateSql_builtIn _ _ _ _ _ _ _ E).
  rewrite (builtIn_default_statement _ _ E Hd). unfold defaultFormatStatement.
  set (sql := statement (builtInOptions tableName macros) query).
  change (sql_type sql) with "SELECT". change (sql_list sql) with "*".
  change (sql_limit sql) with (limit query) in *.
  destruct (pushFrom_concat "SELECT" ["*"] sql) as (ps1 & -> & E1).
  destruct (pushWhere_concat (closed h f) "SELECT" ps1 sql
              (initial (builtInOptions tableName macros) fields) text Hwhere)
    as (ps2 & -> & E2).
  cbn [mbind outcome_bind mret outcome_ret resultOf].
  destruct (pushLimit_concat "LIMIT" "SELECT" ps2 sql) as (ps3 & -> & E3).
  rewrite E3, E2, E1. unfold succeeded. do 3 f_equal.
  change (String.concat " " ["SELECT"; "*"]) with "SELECT *".
  by rewrite !append_assoc.
Qed.

(** X12. A call of [generateSql] with the dialect [sqlserver] whose
    where-expression renders (or is absent), and in which the limit, if
    any, and the numbers of the expression are safe integers, succeeds with
    the text [SELECT], then [ TOP ] and the
    limit in decimal when the limit is present and not zero, then [ *],
    then [ FROM ] and the table name when the table name is present and not
    empty, then [ WHERE ] and the text of the where-expression when there
    is one ([undefined] when it renders to no text), then [;]. *)
Theorem sqlserver_statement_layout (tableName : option string)
    (macros : gmap string nat) (h : Heap) (fields : gmap Z string)
    (query : SqlQuery) (text : option string) :
  safeLimit query = true -> safeStore h = true ->
  whereRenders (closed h sqlserver) query (mkMeta fields macros []) text ->
  generateSql {| tableName := tableName; opt_macros := Some macros;
                 opt_formatters := None |} h "sqlserver" fields query
  = Some {| success := true; error := None;
            data := Some ("SELECT"
                          +:+ clauseText "TOP" (writtenLimit (limit query))
                          +:+ " *"
                          +:+ clauseText "FROM" (writtenFrom tableName)
                          +:+ clauseText "WHERE" text
                          +:+ ";") |}.
Proof.
  intros _ _ Hwhere.
  change {| tableName := tableName; opt_macros := Some macros;
            opt_formatters := None |} with (builtInOptions tableName macros).
  rewrite (generateSql_builtIn "sqlserver" sqlserver) by reflexivity.
  cbn [formatStatement sqlserver]. unfold sqlserverFormatStatement.
  set (sql := statement (builtInOptions tableName macros) query).
  change (sql_type sql) with "SELECT".
  destruct (pushLimit_concat "TOP" "SELECT" [] sql) as (ps1 & -> & E1).
  change (("SELECT" :: ps1) ++ [sql_list sql])%list
    with ("SELECT" :: (ps1 ++ ["*"]))%list.
  destruct (pushFrom_concat "SELECT" (ps1 ++ ["*"]) sql) as (ps2 & -> & E2).
  destruct (pushWhere_concat (closed h sqlserver) "SELECT" ps2 sql
              (initial (builtInOptions tableName macros) fields) text Hwhere)
    as (ps3 & -> & E3).
  cbn [mbind outcome_bind mret outcome_ret resultOf].
  rewrite E3, E2, concat_snoc, E1. unfold succeeded. do 3 f_equal.
  change (String.concat " " ["SELECT"]) with "SELECT".
  by rewrite !append_assoc.
Qed.

(** ** The part of the store that is read *)

Lemma closedUnder_sound (h : Heap) (ms : gmap string nat) (l : list nat) (w a : nat) :
  closedUnder h ms l = true -> w ∈ l -> reaches h ms w a -> a ∈ l.
Proof.
  intros Hc Hw Hreach. unfold closedUnder in Hc. rewrite forallb_forall in Hc.
  induction Hreach as [x|x y z (node & Hx & Hy) _ IH]; [assumption|].
  apply IH. apply list_elem_of_In, Hc in Hw. rewrite Hx in Hw.
  rewrite forallb_forall in Hw. apply list_elem_of_In, Hw in Hy.
  by apply bool_decide_eq_true in Hy.
Qed.

Lemma defaultFormatOperator_ext_stores (B B' : Bundle) (h1 h2 : Heap) (w : nat)
    (meta : SqlFormatterMetadata) :
  h1 !! w = h2 !! w ->
  (forall v m, callValue B v m = callValue B' v m) ->
  (w ∉ visited meta -> forall node, h1 !! w = Some node ->
   forall c, c ∈ children (macros meta) node ->
     callOperator B c (visit meta w) = callOperator B' c (visit meta w)
     /\ needsWrapped h1 c = needsWrapped h2 c) ->
  defaultFormatOperator B h1 w meta = defaultFormatOperator B' h2 w meta.
Proof.
  intros Hw Hv Hc. unfold defaultFormatOperator. rewrite <- Hw.
  case_bool_decide as Hin; [reflexivity|].
  destruct (h1 !! w) as [node|] eqn:Ew; [|reflexivity].
  specialize (Hc Hin node eq_refl).
  destruct node as [key|tag clauses|clause|sign a b|sign a rest|tag v|name];
    simpl in Hc.
  - rewrite Hv. reflexivity.
  - f_equal. apply mapM_ext_in. intros c Hcin. unfold clausePart.
    destruct (Hc c Hcin) as [-> ->]. reflexivity.
  - destruct (Hc clause) as [-> _]; [by left|reflexivity].
  - rewrite !Hv. reflexivity.
  - assert (Em : mapM (fun x => callValue B x (visit meta w)) rest
                 = mapM (fun x => callValue B' x (visit meta w)) rest)
      by (apply mapM_ext_in; intros; apply Hv).
    destruct rest as [|b [|b' rest]]; rewrite ?Hv; try reflexivity;
      rewrite Em; reflexivity.
  - destruct tag; rewrite Hv; reflexivity.
  - change (macros (visit meta w)) with (macros meta).
    destruct (macros meta !! name) as [macro|]; [|reflexivity].
    destruct (Hc macro) as [-> _]; [by left|reflexivity].
Qed.

Section Frame.

Context (h1 h2 : Heap) (f : SqlFormatter) (Hstd : standard f).

Lemma same_below_same_outcome_slack (n : nat) :
  forall w meta, slack h1 (visited meta) <= n ->
    (forall a, reaches h1 (macros meta) w a -> h1 !! a = h2 !! a) ->
    callOperator (closed h1 f) w meta = callOperator (closed h2 f) w meta.
Proof.
  induction n as [|n IH]; intros w meta Hn Hsame;
    rewrite !callOperator_closed by assumption;
    (apply defaultFormatOperator_ext_stores;
     [apply Hsame, rtc_refl
     |intros v m; apply (callValue_fields h1 f Hstd h2 f); auto|]);
    intros Hw node Hnode c Hc;
    pose proof (slack_visit h1 _ w Hw (ltac:(eauto))) as Hlt; [lia|].
  assert (Hedge : edge h1 (macros meta) w c) by (exists node; auto).
  split.
  - apply IH; [simpl; lia|]. intros a Ha. apply Hsame. by eapply rtc_l.
  - unfold needsWrapped. rewrite (Hsame c); [reflexivity|].
    eapply rtc_l; [exact Hedge|apply rtc_refl].
Qed.

(** Two stores that hold the same objects at and below [w] render [w]
    alike. *)
Lemma same_below_same_outcome (w : nat) (meta : SqlFormatterMetadata) :
  (forall a, reaches h1 (macros meta) w a -> h1 !! a = h2 !! a) ->
  callOperator (closed h1 f) w meta = callOperator (closed h2 f) w meta.
Proof. by apply (same_below_same_outcome_slack (slack h1 (visited meta))). Qed.

End Frame.

Lemma builtIn_statement_ext (dialect : string) (f : SqlFormatter) (B B' : Bundle)
    (sql : SqlStatement) (meta : SqlFormatterMetadata) :
  builtInFormatters !! dialect = Some f ->
  (forall w, sql_where sql = Some w ->
     callOperator B w meta = callOperator B' w meta) ->
  formatStatement f B sql meta = formatStatement f B' sql meta.
Proof.
  intros E HB.
  assert (Hp : forall parts, pushWhere B parts sql meta = pushWhere B' parts sql meta).
  { intros parts. unfold pushWhere. destruct (sql_where sql) as [w|]; [|reflexivity].
    by rewrite (HB w). }
  destruct (builtIn_cases _ _ E) as [->|[->| ->]];
    cbn [formatStatement sqlserver postgres mysql defaultFormatter];
    [unfold sqlserverFormatStatement|unfold defaultFormatStatement..];
    rewrite Hp; reflexivity.
Qed.

(** X13. The result of [generateSql] depends only on the objects at and
    below the where-expression: two stores that hold the same arrays there
    give the same result, whatever else they hold (a macro body that the
    where-expression never reaches, cyclic or not, changes nothing). *)
Theorem unreached_objects_do_not_matter (dialect : string) (f : SqlFormatter)
    (tableName : option string) (macros : gmap string nat) (h1 h2 : Heap)
    (fields : gmap Z string) (limit : option Z) (w : nat) :
  builtInFormatters !! dialect = Some f ->
  (forall a, reaches h1 macros w a -> h1 !! a = h2 !! a) ->
  generateSql {| tableName := tableName; opt_macros := Some macros;
                 opt_formatters := None |} h1 dialect fields
    {| limit := limit; where_ := Some w |}
  = generateSql {| tableName := tableName; opt_macros := Some macros;
                   opt_formatters := None |} h2 dialect fields
      {| limit := limit; where_ := Some w |}.
Proof.
  intros E Hsame. pose proof (builtIn_standard _ _ E) as Hstd.
  change {| tableName := tableName; opt_macros := Some macros;
            opt_formatters := None |} with (builtInOptions tableName macros).
  rewrite !(generateSql_builtIn _ _ _ _ _ _ _ E). f_equal.
  apply (builtIn_statement_ext dialect); [assumption|].
  intros w' [= <-]. by apply same_below_same_outcome.
Qed.

(** ** Instances of the further theorems *)

(** X1 at the two macros of the repository's test that refer to each
    other. *)
Lemma error_reports_are_real_witness :
  justified Fixtures.decent Fixtures.decent_macros Fixtures.fields 0
    CircularDependency.
Proof.
  apply (error_reports_are_real "postgres" postgres (Some "data")
           Fixtures.decent_macros Fixtures.decent Fixtures.fields None 0
           CircularDependency).
  - reflexivity.
  - vm_compute. reflexivity.
Defined.

(** X2 at the nested expression of the repository's test, which
    succeeds, and at a reference to a macro named [toString] with an empty
    macro table, which is found. *)
Lemma success_iff_witness :
  (renderable Fixtures.nested ∅ Fixtures.fields 0
   /\ forall n, reaches Fixtures.nested ∅ 0 n -> ~ ownAncestor Fixtures.nested ∅ n)
  /\ exists text,
       generateSql (Fixtures.with_macros ∅) (Fixtures.only (OpMacro "toString"))
         "postgres" Fixtures.fields Fixtures.at0
       = Some {| success := true; error := None; data := Some text |}.
Proof.
  split.
  - apply (proj1 (success_iff "postgres" postgres (Some "data") ∅ Fixtures.nested
                    Fixtures.fields None 0 eq_refl)).
    eexists. vm_compute. reflexivity.
  - apply (proj2 (success_iff "postgres" postgres (Some "data") ∅
                    (Fixtures.only (OpMacro "toString")) Fixtures.fields None 0
                    eq_refl)).
    split.
    + intros a Ha.
      apply (leaf_reaches _ _ 0 a (OpMacro "toString")) in Ha as ->;
        [|reflexivity..].
      exists (OpMacro "toString"). split; reflexivity.
    + intros n Hn.
      apply (leaf_reaches _ _ 0 n (OpMacro "toString")) in Hn as ->;
        [|reflexivity..].
      apply (leaf_not_ownAncestor _ _ 0 (OpMacro "toString")); reflexivity.
Defined.

(** X3 at the reused field reference, below a path of two other objects. *)
Lemma shorter_path_same_outcome_witness :
  callOperator (closed Fixtures.reused postgres) 0 Fixtures.root
  = callOperator (closed Fixtures.reused postgres) 0 (mkMeta Fixtures.fields ∅ [7; 8]).
Proof.
  apply (shorter_path_same_outcome Fixtures.reused postgres 0
           (mkMeta Fixtures.fields ∅ [7; 8]) Fixtures.root).
  - split; reflexivity.
  - reflexivity.
  - reflexivity.
  - intros x Hx. by apply not_elem_of_nil in Hx.
  - vm_compute. discriminate.
Defined.

(** X4 at the macro [is_joe] of the repository's test. *)
Lemma macro_reference_renders_body_witness :
  callOperator (closed Fixtures.joe postgres) 10
    (mkMeta Fixtures.fields Fixtures.joe_macros [])
  = callOperator (closed Fixtures.joe postgres) 2
      (mkMeta Fixtures.fields Fixtures.joe_macros []).
Proof.
  apply (macro_reference_renders_body Fixtures.joe postgres 2 10 "is_joe"
           (mkMeta Fixtures.fields Fixtures.joe_macros [])).
  - split; reflexivity.
  - reflexivity.
  - reflexivity.
  - vm_compute. discriminate.
Defined.

(** X5 at the array whose first operand is an unknown field and whose
    second operand is the array itself. *)
Lemma first_failing_operand_wins_witness :
  callOperator (closed Fixtures.unknownThenSelf postgres) 0 Fixtures.root
  = Throw (UnknownField 999).
Proof.
  apply (first_failing_operand_wins Fixtures.unknownThenSelf postgres 0 1 TAnd
           [] [0] Fixtures.root (UnknownField 999)).
  - split; reflexivity.
  - reflexivity.
  - apply not_elem_of_nil.
  - constructor.
  - vm_compute. reflexivity.
Defined.

(** X6 at [not-empty] of the field 3. *)
Lemma empty_test_is_null_equality_witness :
  callOperator (closed (Fixtures.only (OpEmpty TNotEmpty (VField 3))) mysql) 0
    Fixtures.root
  = callOperator (closed (Fixtures.only (OpEq TNe (VField 3) [VNull])) mysql) 0
      Fixtures.root.
Proof.
  apply (empty_test_is_null_equality _ _ mysql 0 0 TNotEmpty (VField 3)
           Fixtures.root Fixtures.root).
  - split; reflexivity.
  - reflexivity.
  - reflexivity.
  - apply not_elem_of_nil.
  - apply not_elem_of_nil.
  - reflexivity.
Defined.

(** X7 at the unknown field of the repository's test. *)
Lemma value_fails_iff_witness :
  callValue (closed ∅ mysql) (VField 999) Fixtures.root = Throw (UnknownField 999).
Proof.
  apply (proj2 (value_fails_iff ∅ mysql (VField 999) Fixtures.root
                  (UnknownField 999) (conj eq_refl eq_refl))).
  exists 999%Z. split; [reflexivity|]. split; [reflexivity|]. left. reflexivity.
Defined.

(** X9 at the nested expression, with the limit 0. *)
Lemma sqlserver_as_postgres_witness :
  generateSql Fixtures.data_table Fixtures.nested "sqlserver" Fixtures.fields
    {| limit := Some 0%Z; where_ := Some 0 |}
  = generateSql Fixtures.data_table Fixtures.nested "postgres" Fixtures.fields
      {| limit := Some 0%Z; where_ := Some 0 |}.
Proof.
  apply (sqlserver_as_postgres (Some "data") None Fixtures.nested Fixtures.fields
           {| limit := Some 0%Z; where_ := Some 0 |}).
  right. reflexivity.
Defined.

(** X10 at [sqlserver] and [mysql], on the array whose first operand is an
    unknown field. *)
Lemma dialects_fail_alike_witness :
  success (failed (UnknownField 999)) = success (failed (UnknownField 999))
  /\ error (failed (UnknownField 999)) = error (failed (UnknownField 999)).
Proof.
  apply (dialects_fail_alike "sqlserver" "mysql" sqlserver mysql (Some "data") ∅
           Fixtures.unknownThenSelf Fixtures.fields Fixtures.at0
           (failed (UnknownField 999)) (failed (UnknownField 999))).
  - reflexivity.
  - reflexivity.
  - vm_compute. reflexivity.
  - vm_compute. reflexivity.
Defined.

(** X11 at the [mysql] query with a limit of the repository's test. *)
Lemma default_statement_layout_witness :
  generateSql (Fixtures.with_macros ∅)
    (Fixtures.only (OpEq TEq (VField 2) [VString "cam"])) "mysql" Fixtures.fields
    {| limit := Some 10%Z; where_ := Some 0 |}
  = Some {| success := true; error := None;
            data := Some "SELECT * FROM data WHERE `name` = 'cam' LIMIT 10;" |}.
Proof.
  apply (default_statement_layout "mysql" mysql (Some "data") ∅
           (Fixtures.only (OpEq TEq (VField 2) [VString "cam"])) Fixtures.fields
           {| limit := Some 10%Z; where_ := Some 0 |} (Some "`name` = 'cam'")).
  - reflexivity.
  - discriminate.
  - reflexivity.
  - vm_compute. reflexivity.
  - exists (Text "`name` = 'cam'"). split; [vm_compute; reflexivity|reflexivity].
Defined.

(** X12 at the [sqlserver] query with a limit of the repository's test. *)
Lemma sqlserver_statement_layout_witness :
  generateSql (Fixtures.with_macros ∅) ∅ "sqlserver" Fixtures.fields
    {| limit := Some 20%Z; where_ := None |}
  = Some {| success := true; error := None;
            data := Some "SELECT TOP 20 * FROM data;" |}.
Proof.
  apply (sqlserver_statement_layout (Some "data") ∅ ∅ Fixtures.fields
           {| limit := Some 20%Z; where_ := None |} None).
  - reflexivity.
  - reflexivity.
  - reflexivity.
Defined.

(** X13 at the reused field reference, with an object that is its own
    operand added where the expression does not reach it. *)
Lemma unreached_objects_do_not_matter_witness :
  generateSql (Fixtures.with_macros ∅) Fixtures.reused "postgres" Fixtures.fields
    Fixtures.at0
  = generateSql (Fixtures.with_macros ∅) (<[5 := OpNot 5]> Fixtures.reused)
      "postgres" Fixtures.fields Fixtures.at0.
Proof.
  apply (unreached_objects_do_not_matter "postgres" postgres (Some "data") ∅
           Fixtures.reused (<[5 := OpNot 5]> Fixtures.reused) Fixtures.fields
           None 0).
  - reflexivity.
  - intros a Ha.
    apply (closedUnder_sound Fixtures.reused ∅ [0; 1] 0 a) in Ha;
      [|vm_compute; reflexivity|by left].
    apply elem_of_cons in Ha as [->|Ha]; [vm_compute; reflexivity|].
    apply list_elem_of_singleton in Ha as ->. vm_compute. reflexivity.
Defined.

(** ** Instances for cycles and for what stops a traversal *)

(** C2 as stated fails: the node 0 of this store is its own operand, and
    compiling reports the unknown field met before the cycle. *)
Lemma own_ancestor_other_error :
  ownAncestor Fixtures.unknownThenSelf ∅ 0
  /\ generateSql (Fixtures.with_macros ∅) Fixtures.unknownThenSelf "postgres"
       Fixtures.fields Fixtures.at0
     = Some {| success := false; error := Some (UnknownField 999); data := None |}
  /\ Some (UnknownField 999) <> Some CircularDependency.
Proof.
  split; [|split].
  - apply tc_once. apply (edge_operand _ _ _ _ TAnd [1; 0]); [reflexivity|is_in].
  - vm_compute. reflexivity.
  - discriminate.
Qed.

(** C2, amended, at the self-referential array of the repository's test,
    where everything resolves, and at the two macros of the repository's
    test that refer to each other, where the field 5 has no column name but
    is met after the reference that closes the cycle. *)
Lemma own_ancestor_fails_witness :
  generateSql (Fixtures.with_macros ∅) Fixtures.selfReferential "postgres"
    Fixtures.fields Fixtures.at0
  = Some {| success := false; error := Some CircularDependency; data := None |}
  /\ generateSql (Fixtures.with_macros Fixtures.decent_macros) Fixtures.decent
       "postgres" Fixtures.fields Fixtures.at0
     = Some {| success := false; error := Some CircularDependency; data := None |}.
Proof.
  split.
  - destruct (own_ancestor_fails "postgres" postgres (Some "data") ∅
                Fixtures.selfReferential Fixtures.fields None 0 0)
      as (e & He & Hcirc & _).
    + reflexivity.
    + apply rtc_refl.
    + apply tc_once. apply (edge_operand _ _ _ _ TAnd [0; 1]); [reflexivity|is_in].
    + unfold Fixtures.with_macros, Fixtures.at0. rewrite He. rewrite Hcirc.
      * reflexivity.
      * apply storeResolves_sound; [vm_compute; reflexivity|].
        exists (OpBool TAnd [0; 1]). reflexivity.
  - destruct (own_ancestor_fails "postgres" postgres (Some "data")
                Fixtures.decent_macros Fixtures.decent Fixtures.fields None 0 20)
      as (e & He & _ & Hstops).
    + reflexivity.
    + apply rtc_once. apply (edge_body _ _ _ _ "is_decent"); reflexivity.
    + apply (tc_l _ 20 21); [apply (edge_operand _ _ _ _ TAnd [21; 22]);
                              [reflexivity|is_in]|].
      apply (tc_l _ 21 10); [apply (edge_body _ _ _ _ "is_good"); reflexivity|].
      apply (tc_l _ 10 11); [apply (edge_operand _ _ _ _ TAnd [11; 12]);
                              [reflexivity|is_in]|].
      apply tc_once. apply (edge_body _ _ _ _ "is_decent"); reflexivity.
    + unfold Fixtures.with_macros, Fixtures.at0. rewrite He.
      rewrite (proj2 Hstops); [reflexivity|].
      apply (stops_body _ _ _ _ 0 "is_decent" 20); [not_in|reflexivity..|].
      apply (stops_operand _ _ _ _ 20 TAnd [] 21 [22]);
        [not_in|reflexivity|constructor|].
      apply (stops_body _ _ _ _ 21 "is_good" 10); [not_in|reflexivity..|].
      apply (stops_operand _ _ _ _ 10 TAnd [] 11 [12]);
        [not_in|reflexivity|constructor|].
      apply (stops_body _ _ _ _ 11 "is_decent" 20); [not_in|reflexivity..|].
      apply stops_cycle. is_in.
Defined.

(** X15 at the unknown macro of the repository's test, which is the second
    operand of an [and], and at the array whose first operand is an unknown
    field and whose second operand is the array itself. *)
Lemma failure_is_first_stop_witness :
  generateSql (Fixtures.with_macros ∅) (Fixtures.and_macro "is_adult_joe")
    "postgres" Fixtures.fields Fixtures.at0
  = Some {| success := false; error := Some (MacroNotFound "is_adult_joe");
            data := None |}
  /\ stops Fixtures.unknownThenSelf ∅ Fixtures.fields [] 0 (UnknownField 999).
Proof.
  split.
  - apply (proj2 (failure_is_first_stop "postgres" postgres (Some "data") ∅
                    (Fixtures.and_macro "is_adult_joe") Fixtures.fields None 0
                    (MacroNotFound "is_adult_joe") eq_refl)).
    apply (stops_operand _ _ _ _ 0 TAnd [1] 2 []); [not_in|reflexivity| |].
    + constructor; [|constructor].
      apply (Return_rendersBelow _ postgres standard_postgres _ _ 1 _
               (Text (Fixtures.q "id" +:+ " < 5"))).
      vm_compute. reflexivity.
    + apply stops_name; [not_in|reflexivity|apply lookup_empty|reflexivity].
  - apply (proj1 (failure_is_first_stop "postgres" postgres (Some "data") ∅
                    Fixtures.unknownThenSelf Fixtures.fields None 0
                    (UnknownField 999) eq_refl)).
    vm_compute. reflexivity.
Defined.

(** ** The depth of the recursion *)

Lemma callOperator_stable_more (h : Heap) (f : SqlFormatter) (n k : nat) (w : nat)
    (meta : SqlFormatterMetadata) :
  standard f -> slack h (visited meta) <= n ->
  callOperator (methods (S (S (n + k))) h f) w meta
  = callOperator (methods (S (S n)) h f) w meta.
Proof.
  intros Hstd Hn. induction k as [|k IH].
  - by rewrite Nat.add_0_r.
  - rewrite <- IH. rewrite Nat.add_succ_r. symmetry.
    apply callOperator_stable; [assumption|lia].
Qed.

(** X14. The recursion of a compile with a built-in dialect goes no deeper
    than the number of arrays in the store plus two, cyclic store or not:
    with any depth from there on, [generateSql] returns the same result. *)
Theorem depth_of_store_suffices (depth : nat) (tableName : option string)
    (macros : option (gmap string nat)) (h : Heap) (dialect : string)
    (fields : gmap Z string) (query : SqlQuery) :
  size h + 2 <= depth ->
  generateSqlAt depth {| tableName := tableName; opt_macros := macros;
                         opt_formatters := None |} h dialect fields query
  = generateSql {| tableName := tableName; opt_macros := macros;
                   opt_formatters := None |} h dialect fields query.
Proof.
  intros Hdepth. unfold generateSql, generateSqlAt.
  change (default builtInFormatters (opt_formatters _)) with builtInFormatters.
  destruct (builtInFormatters !! dialect) as [f|] eqn:E; [|reflexivity].
  pose proof (builtIn_standard _ _ E) as Hstd.
  rewrite (builtIn_statement_ext dialect f (methods depth h f)
             (methods (enough h) h f)); [reflexivity|assumption|].
  intros w _. unfold enough.
  replace depth with (S (S (size h + (depth - (size h + 2))))) by lia.
  apply callOperator_stable_more; [assumption|]. apply slack_le.
Qed.

(** X14 at the self-referential array of the repository's test, with a
    depth of one hundred. *)
Lemma depth_of_store_suffices_witness :
  generateSqlAt 100 Fixtures.data_table Fixtures.selfReferential "postgres"
    Fixtures.fields Fixtures.at0
  = generateSql Fixtures.data_table Fixtures.selfReferential "postgres"
      Fixtures.fields Fixtures.at0.
Proof.
  apply (depth_of_store_suffices 100 (Some "data") None Fixtures.selfReferential
           "postgres" Fixtures.fields Fixtures.at0).
  vm_compute. repeat constructor.
Defined.
